(** * The ZooKeeper lock protocol of [lib/lock-protocol.js]

    A shallow embedding of the callback-driven lock protocol.  Every
    JavaScript function and every closure handed to the ZooKeeper client or
    to a timer becomes a computation in a small state-and-output monad over
    the session object [ctx]: the state is the session, the output is the
    list of calls the code makes on its collaborators (client, timers,
    event emitter, logger, the caller's callback), in program order.

    Counters and limits are integers ([Z]).  The backoff arithmetic of
    lines 158-161 is carried out in IEEE 754 binary64, as JavaScript does:
    a finite double is the rational ([Q]) it denotes, and every product is
    rounded to the nearest double, ties to even, with overflow to Infinity
    and gradual underflow.  Strings are [string]; [undefined] is [None]. *)

From Stdlib Require Import String Ascii List ZArith QArith Qround Qminmax Qpower.
From Stdlib Require Import Lia Lqa Bool Sorted Permutation DecimalString.
From Stdlib Require Import Floats.
Import ListNotations.

Local Open Scope string_scope.
Local Open Scope Z_scope.

(** ** JavaScript values that the protocol passes around *)

(** An [Exception] of node-zookeeper-client; as an object it is truthy. *)
Record Exception := mkException { code : Z }.

(** [Exception.NO_NODE] of node-zookeeper-client. *)
Definition NO_NODE : Z := -101.

(** The [Stat] object that [exists] yields for a node that is there. *)
Record Stat := mkStat { version : Z }.

(** A function stored in [ctx.cb]: one supplied by the caller, or the
    [function() {}] that [m.unlock] installs. *)
Inductive callback :=
| UserCb (id : nat)
| EmptyFn.

Inductive value :=
| VUndefined
| VNull
| VString (s : string)
| VNum (n : Z)
| VList (l : list string)
| VErr (e : Exception)
| VCtx.

Definition vopt (o : option string) : value :=
  match o with Some s => VString s | None => VUndefined end.

Definition verr (o : option Exception) : value :=
  match o with Some e => VErr e | None => VNull end.

(** Truthiness of the values that are tested in conditions. *)
Definition truthy_str (o : option string) : bool :=
  match o with Some s => negb (String.eqb s "") | None => false end.

Definition truthy_num (o : option Z) : bool :=
  match o with Some n => negb (n =? 0) | None => false end.

Definition truthy_obj {A} (o : option A) : bool :=
  match o with Some _ => true | None => false end.

(** [`${x}`] for a string-or-undefined and for a number. *)
Definition tmpl (o : option string) : string :=
  match o with Some s => s | None => "undefined" end.

Definition tmpl_num (n : Z) : string := NilZero.string_of_int (Z.to_int n).

(** [a === b] where [a] may be undefined. *)
Definition strict_eq (a b : option string) : bool :=
  match a, b with
  | Some x, Some y => String.eqb x y
  | None, None => true
  | _, _ => false
  end.

(** ** Array and string primitives *)

(** [Array.prototype.sort] without a comparator orders strings by their code
    units; on a total order the sorted arrangement is unique, so an insertion
    sort computes it. *)
Fixpoint insert (x : string) (l : list string) : list string :=
  match l with
  | [] => [x]
  | y :: t => if String.leb x y then x :: l else y :: insert x t
  end.

Fixpoint sort (l : list string) : list string :=
  match l with
  | [] => []
  | x :: t => insert x (sort t)
  end.

(** [Array.prototype.findIndex]: the first index whose element satisfies the
    predicate, or -1. *)
Fixpoint findIndex {A} (p : A -> bool) (l : list A) : Z :=
  match l with
  | [] => -1
  | x :: t => if p x then 0
              else let i := findIndex p t in if i <? 0 then -1 else i + 1
  end.

(** [a[i]]: undefined outside the array, in particular at a negative index. *)
Definition at_index {A} (l : list A) (i : Z) : option A :=
  if i <? 0 then None else nth_error l (Z.to_nat i).

(** [String.prototype.split] on a one-character separator. *)
Fixpoint split (sep : ascii) (s : string) : list string :=
  match s with
  | EmptyString => [""]
  | String c r =>
      if Ascii.eqb c sep then "" :: split sep r
      else match split sep r with
           | h :: t => String c h :: t
           | [] => [String c ""]
           end
  end.

(** [path.split('/').pop()] *)
Definition split_pop (path : string) : string := last (split "/" path) "".

(** ** The session object *)

Record ctx := mkCtx {
  resourceName : string;
  resourceId : string;
  ttl : option Z;
  maxRetryCount : option Z;
  initialRetryWaitMs : Q;
  cb : option callback;
  seqZnode : option string;
  acquiredResource : option string;
  lastChildId : option string;
  collisionCount : option Z
}.

Definition with_cb (v : option callback) (c : ctx) : ctx :=
  mkCtx (resourceName c) (resourceId c) (ttl c) (maxRetryCount c)
        (initialRetryWaitMs c) v (seqZnode c) (acquiredResource c)
        (lastChildId c) (collisionCount c).

Definition with_seqZnode (v : option string) (c : ctx) : ctx :=
  mkCtx (resourceName c) (resourceId c) (ttl c) (maxRetryCount c)
        (initialRetryWaitMs c) (cb c) v (acquiredResource c)
        (lastChildId c) (collisionCount c).

Definition with_acquiredResource (v : option string) (c : ctx) : ctx :=
  mkCtx (resourceName c) (resourceId c) (ttl c) (maxRetryCount c)
        (initialRetryWaitMs c) (cb c) (seqZnode c) v
        (lastChildId c) (collisionCount c).

Definition with_lastChildId (v : option string) (c : ctx) : ctx :=
  mkCtx (resourceName c) (resourceId c) (ttl c) (maxRetryCount c)
        (initialRetryWaitMs c) (cb c) (seqZnode c) (acquiredResource c)
        v (collisionCount c).

Definition with_collisionCount (v : option Z) (c : ctx) : ctx :=
  mkCtx (resourceName c) (resourceId c) (ttl c) (maxRetryCount c)
        (initialRetryWaitMs c) (cb c) (seqZnode c) (acquiredResource c)
        (lastChildId c) v.

Definition with_maxRetryCount (v : option Z) (c : ctx) : ctx :=
  mkCtx (resourceName c) (resourceId c) (ttl c) v
        (initialRetryWaitMs c) (cb c) (seqZnode c) (acquiredResource c)
        (lastChildId c) (collisionCount c).

(** ** Numbers of the backoff: IEEE 754 doubles

    A JavaScript number is a binary64 double.  A finite double is held as
    the rational it denotes; the sign of zero is not kept (no operation of
    the protocol tells the two zeros apart). *)

Inductive double :=
| Fin (q : Q)
| PosInf
| NegInf
| NotANumber.

Definition exp2 (e : Z) : Q := (2 ^ e)%Q.

(** The integer [e] with [2^e <= q < 2^(e+1)], for a positive [q]. *)
Definition Qlog2 (q : Q) : Z :=
  let a := Z.log2 (Qnum q) - Z.log2 (Zpos (Qden q)) in
  if Qle_bool (exp2 a) q then a else a - 1.

(** Rounding to the nearest integer, ties to the even one. *)
Definition rne (x : Q) : Z :=
  let f := Qfloor x in
  match (x - inject_Z f ?= 1 # 2)%Q with
  | Lt => f
  | Gt => f + 1
  | Eq => if Z.even f then f else f + 1
  end.

(** The exponent of the unit in the last place at [q]: 53 significant bits,
    and the fixed spacing [2^-1074] of the subnormal numbers below
    [2^-1022]. *)
Definition ulp_exp (q : Q) : Z := Z.max (Qlog2 q) (-1022) - 52.

(** The multiple of the unit in the last place that is nearest to a
    positive [q]. *)
Definition nearest (q : Q) : Q :=
  (inject_Z (rne (q / exp2 (ulp_exp q))) * exp2 (ulp_exp q))%Q.

(** The double that an operation with exact result [q] returns: round to
    nearest, ties to even; a result that rounds to [2^1024] or more
    overflows. *)
Definition round64 (q : Q) : double :=
  match (q ?= 0)%Q with
  | Eq => Fin 0
  | Gt => let v := nearest q in
          if Qle_bool (exp2 1024) v then PosInf else Fin (Qred v)
  | Lt => let v := nearest (- q) in
          if Qle_bool (exp2 1024) v then NegInf else Fin (Qred (- v))
  end.

(** [q] is the value of a double. *)
Definition is_double (q : Q) : Prop := round64 q = Fin (Qred q).

(** [p * Infinity] and [p * -Infinity] for a finite [p]. *)
Definition times_infinity (p : Q) (positive : bool) : double :=
  match (p ?= 0)%Q with
  | Eq => NotANumber
  | Gt => if positive then PosInf else NegInf
  | Lt => if positive then NegInf else PosInf
  end.

(** [a * b]. *)
Definition dmul (a b : double) : double :=
  match a, b with
  | NotANumber, _ | _, NotANumber => NotANumber
  | Fin p, Fin q => round64 (p * q)
  | Fin p, PosInf | PosInf, Fin p => times_infinity p true
  | Fin p, NegInf | NegInf, Fin p => times_infinity p false
  | PosInf, PosInf | NegInf, NegInf => PosInf
  | PosInf, NegInf | NegInf, PosInf => NegInf
  end.

(** [Math.min(a, b)]. *)
Definition dmin (a b : double) : double :=
  match a, b with
  | NotANumber, _ | _, NotANumber => NotANumber
  | NegInf, _ | _, NegInf => NegInf
  | PosInf, x | x, PosInf => x
  | Fin p, Fin q => if Qle_bool p q then Fin p else Fin q
  end.

(** [Math.pow(2, n)] for an integer [n]: the power of two where it is a
    double (from 2^-1074 to 2^1023), 0 below and Infinity above. *)
Definition pow2 (n : Z) : double := round64 (exp2 n).

(** The numbers that reach [setTimeout] and the log: integers, the
    infinities and NaN.  An integer is read as such a number. *)
Inductive number :=
| Int (z : Z)
| Infinity
| NegInfinity
| NaN.

Coercion Int : Z >-> number.

(** [Math.floor(a)]; the integer part of a finite double is a double. *)
Definition dfloor (a : double) : number :=
  match a with
  | Fin q => Int (Qfloor q)
  | PosInf => Infinity
  | NegInf => NegInfinity
  | NotANumber => NaN
  end.

(** [`${n}`] for such a number; an integer is printed by its digits, as
    JavaScript prints the integers below 10^21. *)
Definition tmpl_number (n : number) : string :=
  match n with
  | Int z => tmpl_num z
  | Infinity => "Infinity"
  | NegInfinity => "-Infinity"
  | NaN => "NaN"
  end.

(** [m] is at most the double that some positive real not above [a]
    rounds to. *)
Definition rounds_above (m a : Q) : Prop :=
  exists b q, (0 < b)%Q /\ (b <= a)%Q /\ round64 b = Fin q /\ (m <= q)%Q.

(** The doubles of the machine, to compare [dmul] with: the value of a
    binary64 float, and whether the product of two floats, as the machine
    computes it, is the product that [dmul] gives. *)
Definition of_float (f : float) : double :=
  match Prim2SF f with
  | S754_zero _ => Fin 0
  | S754_infinity false => PosInf
  | S754_infinity true => NegInf
  | S754_nan => NotANumber
  | S754_finite s m e =>
      Fin (Qred ((if s then -1 else 1) * inject_Z (Zpos m) * exp2 e))
  end.

Definition same_product (a b : float) : bool :=
  match of_float a, of_float b, dmul (of_float a) (of_float b),
        of_float (a * b) with
  | Fin _, Fin _, Fin x, Fin y => Qeq_bool x y
  | Fin _, Fin _, PosInf, PosInf => true
  | Fin _, Fin _, NegInf, NegInf => true
  | _, _, _, _ => false
  end.

(** 0.7, 0.1, 10, 100, 3, the double just below 1, 2^1023, the smallest
    subnormal 2^-1074, a subnormal, the double just above 1, 10^6, 10.5 and
    -0.7. *)
Definition sample_floats : list float :=
  [0x1.6666666666666p-1; 0x1.999999999999ap-4; 10; 100; 3;
   0x1.fffffffffffffp-1; 0x1p1023; 0x1p-1074; 0x1.8p-1060;
   0x1.0000000000001p0; 0x1.e848p+19; 0x1.5p3; -0x1.6666666666666p-1]%float.

(** ** What the code does to its collaborators *)

Inductive channel := OnDebug | OnError.

(** The two closures given to [setTimeout]. *)
Inductive timer :=
| TtlTimer      (* lockAcquired, lines 14-18 *)
| RetryTimer.   (* exists, lines 167-170 *)

(** The two closures given to [client.remove]. *)
Inductive remove_cont :=
| LockFailedRemoved   (* lockFailed, lines 33-35 *)
| UnlockRemoved.      (* m.unlock, lines 71-79 *)

Inductive effect :=
| Log (ch : channel) (args : list value)
| ClientCreate (path : string)             (* data null, EPHEMERAL_SEQUENTIAL *)
| ClientGetChildren (path : string)        (* watcher null *)
| ClientExists (path : string) (watch : bool)
| ClientRemove (path : string) (ver : Z) (k : remove_cont)
| SetTimeout (t : timer) (delay : number)
| SetImmediate (f : callback)
| Emit (name : string) (arg : string)
| CallCb (f : callback) (args : list value)
| TypeError.                               (* calling an undefined [ctx.cb] *)

(** ** The monad: session state and emitted effects *)

Definition M (A : Type) : Type := ctx -> A * ctx * list effect.

Definition ret {A} (a : A) : M A := fun c => (a, c, []).

Definition bind {A B} (m : M A) (k : A -> M B) : M B :=
  fun c => let '(a, c1, e1) := m c in
           let '(b, c2, e2) := k a c1 in
           (b, c2, (e1 ++ e2)%list).

Definition get : M ctx := fun c => (c, c, []).
Definition modify (f : ctx -> ctx) : M unit := fun c => (tt, f c, []).
Definition emit (e : effect) : M unit := fun c => (tt, c, [e]).
Definition skip : M unit := ret tt.

Declare Scope js_scope.
Delimit Scope js_scope with js.
Notation "x <- m ;; k" := (bind m (fun x => k))
  (at level 61, m at next level, right associativity) : js_scope.
Notation "m ;; k" := (bind m (fun _ => k))
  (at level 61, right associativity) : js_scope.
Local Open Scope js_scope.

(** Running a handler on a session: the session afterwards and the effects. *)
Definition exec (m : M unit) (c : ctx) : ctx * list effect :=
  let '(_, c', e) := m c in (c', e).

(** [f(args)] for an [f] read from [ctx.cb]. *)
Definition call (f : option callback) (args : list value) : M unit :=
  match f with
  | Some g => emit (CallCb g args)
  | None => emit TypeError
  end.

(** ** The protocol, function by function *)

(** The closure of line 125 and the body of [getChildren] up to its client
    call (lines 89-91). *)
Definition getChildren : M unit :=
  c <- get ;;
  emit (ClientGetChildren (resourceName c)).

(** [ctx.cb || function() {}] *)
Definition cb_or_empty (c : ctx) : callback :=
  match cb c with Some f => f | None => EmptyFn end.

(** [m.unlock], lines 65-71. *)
Definition unlock : M unit :=
  c <- get ;;
  modify (with_cb (Some (cb_or_empty c))) ;;
  c <- get ;;
  if negb (truthy_str (acquiredResource c)) then
    emit (SetImmediate (cb_or_empty c))
  else
    emit (Log OnDebug [VString "removing"; vopt (acquiredResource c)]) ;;
    emit (ClientRemove (tmpl (acquiredResource c)) (-1) UnlockRemoved).

(** The callback of [client.remove] in [m.unlock], lines 71-79. *)
Definition unlock_removed (err : option Exception) : M unit :=
  c <- get ;;
  if truthy_obj err then
    emit (Log OnDebug [VString "unlock failed"; vopt (acquiredResource c); verr err]) ;;
    call (cb c) [VString "unable to unlock resource"; vopt (acquiredResource c)]
  else
    emit (Log OnDebug [VString "removed"; vopt (acquiredResource c)]) ;;
    modify (with_acquiredResource None) ;;
    c <- get ;;
    call (cb c) [].

(** The function scheduled by [setImmediate(ctx.cb)]: the callback is called
    with no argument. *)
Definition immediate (f : callback) : M unit := emit (CallCb f []).

(** The timer closure of [lockAcquired], lines 14-18. *)
Definition ttl_expired : M unit :=
  c <- get ;;
  emit (Log OnError [VString "lock held time exceeds TTL, force releasing lock";
                     vopt (acquiredResource c)]) ;;
  emit (Emit "ttlExpired" (resourceId c)) ;;
  unlock.

(** [lockAcquired], lines 9-22. *)
Definition lockAcquired : M unit :=
  c <- get ;;
  modify (with_acquiredResource
            (Some (resourceName c ++ "/" ++ tmpl (seqZnode c)))) ;;
  let cb0 := cb c in
  modify (with_cb None) ;;
  (if truthy_num (ttl c)
   then emit (SetTimeout TtlTimer (match ttl c with Some t => t | None => 0 end))
   else skip) ;;
  c <- get ;;
  emit (Log OnDebug [VString "lock acquired"; vopt (acquiredResource c)]) ;;
  call cb0 [VNull; VCtx].

(** [lockFailed], lines 24-39.  [err] is always a string here, so
    [err || ''] is [err]. *)
Definition lockFailed (err : string) : M unit :=
  emit (Log OnError [VString "unable to acquire lock"; VString err]) ;;
  c <- get ;;
  if truthy_str (seqZnode c) then
    let acquiredPath := resourceName c ++ "/" ++ tmpl (seqZnode c) in
    emit (Log OnDebug [VString "lock failed, cleaning up existing sequential znode";
                       VString acquiredPath]) ;;
    emit (ClientRemove acquiredPath (-1) LockFailedRemoved)
  else
    call (cb c) [VString "unable to acquire lock"].

(** The callback of [client.remove] in [lockFailed], lines 33-35: its
    arguments are not looked at. *)
Definition lockFailed_removed (err : option Exception) : M unit :=
  c <- get ;;
  call (cb c) [VString "unable to acquire lock"].

(** [m.lock], lines 41-49. *)
Definition lock : M unit :=
  c <- get ;;
  let resourcePath := resourceName c ++ "/" ++ resourceId c in
  emit (ClientCreate resourcePath).

(** The callback of [client.create], lines 50-61. *)
Definition lock_created (err : option Exception) (path : string) : M unit :=
  if truthy_obj err then
    emit (Log OnError [VString "unable to create ZNode"; verr err]) ;;
    lockFailed "unable to create ZNode"
  else
    emit (Log OnDebug [VString "znode created"; VString path]) ;;
    modify (with_seqZnode (Some (split_pop path))) ;;
    getChildren.

(** [exists] up to its client call, lines 117-131: the watch function is
    passed exactly when [maxRetryCount] is falsy. *)
Definition exists_ : M unit :=
  c <- get ;;
  let watch := negb (truthy_num (maxRetryCount c)) in
  emit (ClientExists (resourceName c ++ "/" ++ tmpl (lastChildId c)) watch).

(** The callback of [client.getChildren], lines 92-113. *)
Definition getChildren_listed (err : option Exception) (children : list string)
  : M unit :=
  c <- get ;;
  if truthy_obj err then
    emit (Log OnDebug [VString "Failed to list children of %s due to: %s.";
                       VString (resourceId c); verr err]) ;;
    lockFailed "Failed to list ZNode children"
  else
    let sorted := sort children in
    emit (Log OnDebug [VString "Children of %s are: %j.";
                       VString (resourceName c); VList sorted]) ;;
    if strict_eq (seqZnode c) (at_index sorted 0) then
      lockAcquired
    else
      let index := findIndex (fun e => strict_eq (Some e) (seqZnode c)) sorted in
      modify (with_lastChildId (at_index sorted (index - 1))) ;;
      exists_.

(** The backoff of lines 158-161, in doubles; [random] is the value of
    [Math.random()] and [initialWait] that of [ctx.initialRetryWaitMs]. *)
Definition maxDelay (count : Z) (initialWait : Q) : double :=
  dmin (dmul (pow2 count) (Fin initialWait)) (dmul (Fin initialWait) (Fin 10)).

Definition nextDelay (random : Q) (count : Z) (initialWait : Q) : number :=
  dfloor (dmul (Fin random) (maxDelay count initialWait)).

(** The value of [ctx.collisionCount || 0]. *)
Definition collisions (c : ctx) : Z :=
  match collisionCount c with
  | Some n => if n =? 0 then 0 else n
  | None => 0
  end.

(** The callback of [client.exists], lines 133-176. *)
Definition exists_checked (err : option Exception) (stat : option Stat)
  (random : Q) : M unit :=
  c <- get ;;
  if truthy_obj err then
    let msg := "unable to check the existence of "
               ++ resourceName c ++ "/" ++ tmpl (lastChildId c) in
    emit (Log OnError [VString msg]) ;;
    lockFailed msg
  else if truthy_obj stat then
    if truthy_num (maxRetryCount c) then
      let count := collisions c in
      modify (with_collisionCount (Some count)) ;;
      let limit := match maxRetryCount c with Some m => m | None => 0 end in
      if count >? limit then
        emit (Log OnDebug [VString "Lock failed, retry count limit reached - ";
                           VNum count]) ;;
        lockFailed ("Lock failed, retry count limit reached - " ++ tmpl_num count)
      else
        let delay := nextDelay random count (initialRetryWaitMs c) in
        emit (Log OnDebug [VString ("Lock is still not available, retrying #"
                                    ++ tmpl_num count ++ " in " ++ tmpl_number delay)]) ;;
        emit (SetTimeout RetryTimer delay)
    else skip
  else
    emit (Log OnDebug [VString "Lock appears to be available, re-acquiring."]) ;;
    getChildren.

(** The timer closure of [exists], lines 167-170.  On an undefined count
    [++] yields NaN, which every later read ([|| 0]) treats as undefined. *)
Definition retry_fired : M unit :=
  c <- get ;;
  modify (with_collisionCount
            (match collisionCount c with Some n => Some (n + 1) | None => None end)) ;;
  getChildren.

(** ** The event loop

    Each closure runs when the collaborator it was handed to calls it back.
    A [world] keeps the session, the call-backs still owed to it and
    everything the code has emitted so far. *)

Inductive event :=
| CallLock                                            (* m.lock(ctx) *)
| CallUnlock                                          (* m.unlock(ctx) *)
| Created (err : option Exception) (path : string)
| Listed (err : option Exception) (children : list string)
| Checked (err : option Exception) (stat : option Stat) (random : Q)
| Watched
| Removed (k : remove_cont) (err : option Exception)
| Fired (t : timer)
| Immediate (f : callback).

Definition handler (ev : event) : M unit :=
  match ev with
  | CallLock => lock
  | CallUnlock => unlock
  | Created err path => lock_created err path
  | Listed err children => getChildren_listed err children
  | Checked err stat random => exists_checked err stat random
  | Watched => getChildren
  | Removed LockFailedRemoved err => lockFailed_removed err
  | Removed UnlockRemoved err => unlock_removed err
  | Fired TtlTimer => ttl_expired
  | Fired RetryTimer => retry_fired
  | Immediate f => immediate f
  end.

Inductive pending :=
| PCreated
| PListed
| PChecked
| PWatch
| PRemoved (k : remove_cont)
| PTimer (t : timer)
| PImmediate (f : callback).

Definition pending_eq_dec (a b : pending) : {a = b} + {a <> b}.
Proof. repeat decide equality. Defined.

(** The call-backs an effect leaves owed.  There is no effect that takes one
    back: the source never calls [clearTimeout] or removes a watch. *)
Definition owed (e : effect) : list pending :=
  match e with
  | ClientCreate _ => [PCreated]
  | ClientGetChildren _ => [PListed]
  | ClientExists _ watch => PChecked :: (if watch then [PWatch] else [])
  | ClientRemove _ _ k => [PRemoved k]
  | SetTimeout t _ => [PTimer t]
  | SetImmediate f => [PImmediate f]
  | _ => []
  end.

(** The call-back an event answers; the two entry points answer none. *)
Definition answers (ev : event) : option pending :=
  match ev with
  | CallLock | CallUnlock => None
  | Created _ _ => Some PCreated
  | Listed _ _ => Some PListed
  | Checked _ _ _ => Some PChecked
  | Watched => Some PWatch
  | Removed k _ => Some (PRemoved k)
  | Fired t => Some (PTimer t)
  | Immediate f => Some (PImmediate f)
  end.

Record world := mkWorld {
  session : ctx;
  outstanding : list pending;
  output : list effect
}.

Definition init (c : ctx) : world := mkWorld c [] [].

Fixpoint take_out (p : pending) (l : list pending) : option (list pending) :=
  match l with
  | [] => None
  | q :: t => if pending_eq_dec p q then Some t
              else match take_out p t with
                   | Some t' => Some (q :: t')
                   | None => None
                   end
  end.

Definition fire (ev : event) (w : world) (rest : list pending) : world :=
  let '(c', out) := exec (handler ev) (session w) in
  mkWorld c' (rest ++ flat_map owed out)%list (output w ++ out)%list.

(** An event is delivered only if it is an entry point or was being waited
    for; one-shot call-backs are then no longer owed. *)
Definition deliver (ev : event) (w : world) : option world :=
  match answers ev with
  | None => Some (fire ev w (outstanding w))
  | Some p => match take_out p (outstanding w) with
              | Some rest => Some (fire ev w rest)
              | None => None
              end
  end.

Fixpoint run (evs : list event) (w : world) : option world :=
  match evs with
  | [] => Some w
  | ev :: evs' => match deliver ev w with
                  | Some w' => run evs' w'
                  | None => None
                  end
  end.

(** ** Observations on sessions and outputs *)

Definition truthy (v : value) : bool :=
  match v with
  | VUndefined | VNull => false
  | VString s => negb (String.eqb s "")
  | VNum n => negb (n =? 0)
  | VList _ | VErr _ | VCtx => true
  end.

(** A call of the node-style callback reports an error when its first
    argument is truthy. *)
Definition reports_error (args : list value) : bool :=
  match args with
  | [] => false
  | v :: _ => truthy v
  end.

Definition is_store_call (e : effect) : bool :=
  match e with
  | ClientCreate _ | ClientGetChildren _ | ClientExists _ _ | ClientRemove _ _ _ => true
  | _ => false
  end.

Definition is_retry (e : effect) : bool :=
  match e with SetTimeout RetryTimer _ => true | _ => false end.

Definition is_callback (e : effect) : bool :=
  match e with CallCb _ _ | TypeError => true | _ => false end.

(** [s] is the lexicographically smallest of [l]. *)
Definition smallest (s : string) (l : list string) : Prop :=
  In s l /\ forall x, In x l -> String.leb s x = true.

(** [lockFailed] has been entered. *)
Definition is_lockFailed (e : effect) : bool :=
  match e with
  | Log OnError [VString m; VString _] => String.eqb m "unable to acquire lock"
  | _ => false
  end.

Definition retries (out : list effect) : nat := length (filter is_retry out).
Definition failures (out : list effect) : nat := length (filter is_lockFailed out).

Definition le_str (a b : string) : Prop := String.leb a b = true.

(** ** Polling scenarios

    One poll of the store: the children are listed, then the predecessor is
    found to be still there. *)
Definition round : Type := (list string * Stat * Q)%type.

Definition recheck (r : round) : list event :=
  let '(children, stat, random) := r in
  [Listed None children; Checked None (Some stat) random].

(** A poll followed by the firing of the retry timer it set. *)
Definition retry (r : round) : list event :=
  (recheck r ++ [Fired RetryTimer])%list.

(** In the round, the node [s] is not the smallest child. *)
Definition behind (s : string) (r : round) : Prop :=
  ~ smallest s (fst (fst r)).

(** The state between two polls of the session that created [s] under the
    retry limit [limit]: the children are being listed and [count] retries
    have been used. *)
Definition polling (s : string) (limit count : Z) (w : world) : Prop :=
  outstanding w = [PListed] /\
  seqZnode (session w) = Some s /\
  maxRetryCount (session w) = Some limit /\
  collisions (session w) = count.

(** ** Sessions without a retry limit *)

Definition erase_limit (w : world) : world :=
  mkWorld (with_maxRetryCount None (session w)) (outstanding w) (output w).

(** What stays true of a session whose limit is falsy: the count is never
    touched, no retry timer is owed, none was set, and every existence check
    carried a watch. *)
Definition watching (count : option Z) (w : world) : Prop :=
  truthy_num (maxRetryCount (session w)) = false /\
  collisionCount (session w) = count /\
  ~ In (PTimer RetryTimer) (outstanding w) /\
  Forall (fun e => is_retry e = false /\
                   forall p watch, e = ClientExists p watch -> watch = true)
         (output w).

(** The element that the callback of [getChildren] stores in
    [ctx.lastChildId] for the node [s], lines 106-110: the one just before
    the first occurrence of [s] in the sorted children. *)
Definition before (s : string) (children : list string) : option string :=
  let sorted := sort children in
  at_index sorted (findIndex (fun e => strict_eq (Some e) (Some s)) sorted - 1).

(** ** Sessions to run examples on *)

(** A fresh request. *)
Definition demo : ctx :=
  mkCtx "/locks/a" "x" None None 0%Q (Some (UserCb 0)) None None None None.

(** A fresh request with a TTL of one second. *)
Definition demo_ttl : ctx :=
  mkCtx "/locks/a" "x" (Some 1000) None 0%Q (Some (UserCb 0)) None None None None.

(** A session that waits behind [x0000000001]. *)
Definition demo_queued : ctx :=
  mkCtx "/locks/a" "x" None None 0%Q (Some (UserCb 0))
        (Some "x0000000002") None (Some "x0000000001") None.

(** A session that holds the lock, with a TTL of one second. *)
Definition demo_held : ctx :=
  mkCtx "/locks/a" "x" (Some 1000) None 0%Q None
        (Some "x0000000001") (Some "/locks/a/x0000000001") None None.

(** A request that polls, with at most one retry and a base wait of 100 ms,
    whose node has just been created. *)
Definition demo_polling : world :=
  mkWorld (mkCtx "/locks/a" "x" None (Some 1) 100%Q (Some (UserCb 0))
                 (Some "x0000000002") None None None)
          [PListed] [].

(** A request whose retry limit is zero. *)
Definition demo_zero : ctx :=
  mkCtx "/locks/a" "x" None (Some 0) 100%Q (Some (UserCb 0)) None None None None.

Definition demo_round : round :=
  (["x0000000002"; "x0000000001"], mkStat 0, 1 # 2).

(** ** Further observations *)

(** The name has no ['/'] in it. *)
Fixpoint no_slash (s : string) : bool :=
  match s with
  | EmptyString => true
  | String c r => negb (Ascii.eqb c "/") && no_slash r
  end.

(** The part of the session that is the caller's request. *)
Definition request (c : ctx) : string * string * option Z * option Z * Q :=
  (resourceName c, resourceId c, ttl c, maxRetryCount c, initialRetryWaitMs c).

(** [p] is a path directly written as [dir/...]. *)
Definition under (dir p : string) : Prop := exists s, p = dir ++ "/" ++ s.

(** The held path, when there is one, lies under the resource. *)
Definition held_under (c : ctx) : Prop :=
  match acquiredResource c with
  | Some p => under (resourceName c) p
  | None => True
  end.

Definition removes_under (dir : string) (e : effect) : Prop :=
  match e with
  | ClientRemove p _ _ => under dir p
  | _ => True
  end.

(** The two effects of the TTL: arming the timer and announcing its expiry. *)
Definition is_ttl_effect (e : effect) : bool :=
  match e with SetTimeout TtlTimer _ | Emit _ _ => true | _ => false end.

Definition is_watched_check (e : effect) : bool :=
  match e with ClientExists _ true => true | _ => false end.

(** The session releases under its resource only: the held path lies under
    it and so does every removal sent so far. *)
Definition tidy (w : world) : Prop :=
  held_under (session w) /\
  Forall (removes_under (resourceName (session w))) (output w).

(** No TTL is configured, no TTL timer is owed, none was set and no expiry
    was announced. *)
Definition untimed (w : world) : Prop :=
  truthy_num (ttl (session w)) = false /\
  ~ In (PTimer TtlTimer) (outstanding w) /\
  Forall (fun e => is_ttl_effect e = false) (output w).

(** A retry limit is configured, no watch is owed and none was asked for. *)
Definition unwatched (w : world) : Prop :=
  truthy_num (maxRetryCount (session w)) = true /\
  ~ In PWatch (outstanding w) /\
  Forall (fun e => is_watched_check e = false) (output w).

Definition is_log (e : effect) : bool :=
  match e with Log _ _ => true | _ => false end.

(** What the code did, the logging aside. *)
Definition actions (out : list effect) : list effect :=
  filter (fun e => negb (is_log e)) out.

(** The world a run ends in, or the world it started in when some event
    could not be delivered. *)
Definition outcome (evs : list event) (w : world) : world :=
  match run evs w with Some w' => w' | None => w end.

(** A way through the protocol: lock, acquire, release. *)
Definition demo_events : list event :=
  [CallLock; Created None "/locks/a/x0000000001";
   Listed None ["x0000000001"]; CallUnlock; Removed UnlockRemoved None].

(** * Properties *)

(** Unfolds the monad and the protocol functions, leaving the primitives on
    strings, numbers and arrays folded. *)
Ltac js :=
  cbv beta iota zeta delta
    [exec handler bind get modify emit ret skip call truthy_obj
     lock lock_created getChildren getChildren_listed exists_ exists_checked
     retry_fired lockAcquired lockFailed lockFailed_removed
     unlock unlock_removed immediate ttl_expired cb_or_empty collisions
     with_cb with_seqZnode with_acquiredResource with_lastChildId
     with_collisionCount with_maxRetryCount
     resourceName resourceId ttl maxRetryCount initialRetryWaitMs cb seqZnode
     acquiredResource lastChildId collisionCount fst snd negb].

(** Case analysis on the next condition the code tests. *)
Ltac branch :=
  match goal with
  | |- context [if ?b then _ else _] => destruct b
  | |- context [match ?o with Some _ => _ | None => _ end] => destruct o
  end.

(** ** Examples *)

Example demo_acquires :
  option_map output
    (run [CallLock; Created None "/locks/a/x0000000001";
          Listed None ["x0000000002"; "x0000000001"]] (init demo))
  = Some [ClientCreate "/locks/a/x";
          Log OnDebug [VString "znode created"; VString "/locks/a/x0000000001"];
          ClientGetChildren "/locks/a";
          Log OnDebug [VString "Children of %s are: %j.";
                       VString "/locks/a"; VList ["x0000000001"; "x0000000002"]];
          Log OnDebug [VString "lock acquired"; VString "/locks/a/x0000000001"];
          CallCb (UserCb 0) [VNull; VCtx]].
Proof. vm_compute. reflexivity. Qed.

Example demo_waits :
  option_map output
    (run [CallLock; Created None "/locks/a/x0000000002";
          Listed None ["x0000000002"; "x0000000001"]] (init demo))
  = Some [ClientCreate "/locks/a/x";
          Log OnDebug [VString "znode created"; VString "/locks/a/x0000000002"];
          ClientGetChildren "/locks/a";
          Log OnDebug [VString "Children of %s are: %j.";
                       VString "/locks/a"; VList ["x0000000001"; "x0000000002"]];
          ClientExists "/locks/a/x0000000001" true].
Proof. vm_compute. reflexivity. Qed.

(** A node that is no longer among the children: the index is -1 and the
    session checks the existence of [/locks/a/undefined]. *)
Example demo_node_missing :
  exec (getChildren_listed None ["x0000000001"]) demo_queued
  = (with_lastChildId None demo_queued,
     [Log OnDebug [VString "Children of %s are: %j.";
                   VString "/locks/a"; VList ["x0000000001"]];
      ClientExists "/locks/a/undefined" true]).
Proof. vm_compute. reflexivity. Qed.

Example split_pop_path : split_pop "/locks/a/x0000000001" = "x0000000001".
Proof. reflexivity. Qed.

Example sort_children :
  sort ["x0000000010"; "x0000000002"; "w0000000003"]
  = ["w0000000003"; "x0000000002"; "x0000000010"].
Proof. reflexivity. Qed.

(** On every pair of the sample floats, [dmul] gives the product that the
    machine's binary64 multiplication gives: rounding to nearest with ties
    to even, overflow and underflow included. *)
Example dmul_as_binary64 :
  forallb (fun a => forallb (same_product a) sample_floats) sample_floats = true.
Proof. vm_compute. reflexivity. Qed.

(** 0.1 * 3 is 0.30000000000000004. *)
Example dmul_inexact :
  dmul (Fin (3602879701896397 # 36028797018963968)) (Fin 3)
  = Fin (1351079888211149 # 4503599627370496).
Proof. vm_compute. reflexivity. Qed.

Example nextDelay_300 : nextDelay (3 # 4) 2 100 = 300.
Proof. vm_compute. reflexivity. Qed.

(** With the double 0.7 as random number and a window of 10, the exact
    product 6.9999999999999995559 lies halfway between two doubles and is
    rounded to 7. *)
Example nextDelay_tie :
  nextDelay (3152519739159347 # 4503599627370496) 0 10 = 7.
Proof. vm_compute. reflexivity. Qed.

(** The greatest random number, 1 - 2^-53, in the capped window of 1000. *)
Example nextDelay_capped :
  maxDelay 7 100 = Fin 1000 /\
  nextDelay (9007199254740991 # 9007199254740992) 7 100 = 999.
Proof. split; vm_compute; reflexivity. Qed.

(** The double written 1e308 as initial wait: after four collisions both
    products overflow, and so does the delay. *)
Example nextDelay_1e308 :
  match round64 (inject_Z (10 ^ 308)) with
  | Fin wait => nextDelay (1 # 2) 4 wait
  | _ => NaN
  end = Infinity.
Proof. vm_compute. reflexivity. Qed.

(** [Math.pow(2, 1024)] is Infinity, and the cap still applies. *)
Example maxDelay_after_pow_overflow : maxDelay 1024 100 = Fin 1000.
Proof. vm_compute. reflexivity. Qed.

Example unlock_twice :
  option_map output
    (run [CallUnlock; Removed UnlockRemoved None; CallUnlock; Immediate EmptyFn]
         (init demo_held))
  = Some [Log OnDebug [VString "removing"; VString "/locks/a/x0000000001"];
          ClientRemove "/locks/a/x0000000001" (-1) UnlockRemoved;
          Log OnDebug [VString "removed"; VString "/locks/a/x0000000001"];
          CallCb EmptyFn [];
          SetImmediate EmptyFn;
          CallCb EmptyFn []].
Proof. vm_compute. reflexivity. Qed.

(** With a limit of one retry: two retries are scheduled, the third check
    gives up. *)
Example demo_polling_gives_up :
  option_map (fun w => (retries (output w), failures (output w), outstanding w))
    (run (retry demo_round ++ retry demo_round ++ recheck demo_round) demo_polling)
  = Some (2%nat, 1%nat, [PRemoved LockFailedRemoved]).
Proof. vm_compute. reflexivity. Qed.

(** ** The order on strings and [sort] *)

Section StringOrder.

Lemma leb_refl (a : string) : String.leb a a = true.
Proof. destruct (String.leb_total a a); assumption. Qed.

Lemma leb_trans (a b c : string) :
  String.leb a b = true -> String.leb b c = true -> String.leb a c = true.
Proof.
  unfold String.leb. revert b c.
  induction a as [|x a IH]; intros [|y b] [|z c]; simpl; try easy.
  unfold Ascii.compare.
  destruct (N.compare_spec (N_of_ascii x) (N_of_ascii y));
    destruct (N.compare_spec (N_of_ascii y) (N_of_ascii z));
    destruct (N.compare_spec (N_of_ascii x) (N_of_ascii z));
    try lia; try easy.
  apply IH.
Qed.

Lemma ltb_leb (a b : string) : String.ltb a b = negb (String.leb b a).
Proof.
  unfold String.ltb, String.leb. rewrite (String.compare_antisym b a).
  destruct (String.compare a b); reflexivity.
Qed.

End StringOrder.

Section Sorting.

Lemma insert_perm (x : string) (l : list string) : Permutation (insert x l) (x :: l).
Proof.
  induction l as [|y t IH]; simpl.
  - apply Permutation_refl.
  - destruct (String.leb x y).
    + apply Permutation_refl.
    + eapply perm_trans; [apply perm_skip, IH | apply perm_swap].
Qed.

Lemma sort_perm (l : list string) : Permutation (sort l) l.
Proof.
  induction l as [|x t IH]; simpl.
  - constructor.
  - eapply perm_trans; [apply insert_perm | apply perm_skip, IH].
Qed.

Lemma sort_In (x : string) (l : list string) : In x (sort l) <-> In x l.
Proof.
  split; apply Permutation_in; [|apply Permutation_sym]; apply sort_perm.
Qed.

Lemma insert_sorted (x : string) (l : list string) :
  StronglySorted le_str l -> StronglySorted le_str (insert x l).
Proof.
  induction 1 as [|y t Ht IH Hy]; simpl.
  - repeat constructor.
  - destruct (String.leb x y) eqn:E.
    + constructor; [constructor; assumption|].
      constructor; [exact E|].
      eapply Forall_impl; [|exact Hy].
      intros z Hz. exact (leb_trans _ _ _ E Hz).
    + constructor; [exact IH|].
      assert (Hyx : le_str y x).
      { destruct (String.leb_total x y) as [H|H]; [congruence | exact H]. }
      rewrite Forall_forall. intros z Hz.
      apply (Permutation_in _ (insert_perm x t)) in Hz.
      destruct Hz as [<-|Hz]; [exact Hyx|].
      rewrite Forall_forall in Hy. exact (Hy z Hz).
Qed.

Lemma sort_sorted (l : list string) : StronglySorted le_str (sort l).
Proof.
  induction l as [|x t IH]; simpl; [constructor | apply insert_sorted, IH].
Qed.

Lemma sort_head_smallest (l : list string) (m : string) (t : list string) :
  sort l = m :: t -> smallest m l.
Proof.
  intros E. split.
  - apply sort_In. rewrite E. left; reflexivity.
  - intros x Hx. apply sort_In in Hx. rewrite E in Hx.
    pose proof (sort_sorted l) as S. rewrite E in S.
    inversion S as [|? ? _ Hall]; subst.
    destruct Hx as [<-|Hx]; [apply leb_refl|].
    rewrite Forall_forall in Hall. exact (Hall x Hx).
Qed.

Lemma smallest_sort_head (l : list string) (s : string) :
  smallest s l -> exists t, sort l = s :: t.
Proof.
  intros [Hs Hle].
  destruct (sort l) as [|m t] eqn:E.
  - apply sort_In in Hs. rewrite E in Hs. destruct Hs.
  - exists t. f_equal.
    destruct (sort_head_smallest _ _ _ E) as [Hm Hmle].
    apply String.leb_antisym; [apply Hmle, Hs | apply Hle, Hm].
Qed.

Lemma head_is_smallest (s : string) (l : list string) :
  strict_eq (Some s) (at_index (sort l) 0) = true <-> smallest s l.
Proof.
  unfold at_index; simpl. split.
  - destruct (sort l) as [|m t] eqn:E; simpl; [discriminate|].
    intros H. apply String.eqb_eq in H. subst m.
    exact (sort_head_smallest _ _ _ E).
  - intros H. destruct (smallest_sort_head _ _ H) as [t ->]. simpl.
    apply String.eqb_refl.
Qed.

Lemma findIndex_ge {A} (p : A -> bool) (l : list A) : -1 <= findIndex p l.
Proof.
  induction l as [|x t IH]; simpl; [lia|].
  destruct (p x); [lia|]. destruct (Z.ltb_spec (findIndex p t) 0); lia.
Qed.

Lemma findIndex_first {A} (p : A -> bool) (s : A) (l : list A) :
  (forall e, p e = true <-> e = s) ->
  In s l ->
  exists l1 l2, l = (l1 ++ s :: l2)%list /\ ~ In s l1 /\
    findIndex p l = Z.of_nat (length l1).
Proof.
  intros Hp. induction l as [|x t IH]; simpl; [intros []|].
  intros H. destruct (p x) eqn:E.
  - apply Hp in E. subst x.
    exists [], t. simpl. repeat split. intros [].
  - assert (Hx : x <> s) by (intros F; apply Hp in F; congruence).
    destruct H as [H|H]; [contradiction|].
    destruct (IH H) as (l1 & l2 & -> & Hn & Hi).
    exists (x :: l1), l2. simpl. repeat split.
    + intros [F|F]; [exact (Hx F) | exact (Hn F)].
    + rewrite Hi. destruct (Z.ltb_spec (Z.of_nat (length l1)) 0); lia.
Qed.

Lemma findIndex_absent {A} (p : A -> bool) (s : A) (l : list A) :
  (forall e, p e = true <-> e = s) ->
  ~ In s l -> findIndex p l = -1.
Proof.
  intros Hp. induction l as [|x t IH]; simpl; [reflexivity|].
  intros H. destruct (p x) eqn:E.
  - apply Hp in E. exfalso. apply H. left. exact E.
  - rewrite IH by (intros F; apply H; right; exact F). reflexivity.
Qed.

Lemma same_as_seqZnode (s e : string) :
  strict_eq (Some e) (Some s) = true <-> e = s.
Proof. apply String.eqb_eq. Qed.

Lemma at_index_app_last {A} (l1 : list A) (p : A) (l2 : list A) :
  at_index (l1 ++ p :: l2)%list (Z.of_nat (length (l1 ++ [p])%list) - 1) = Some p.
Proof.
  unfold at_index. rewrite length_app. simpl Datatypes.length.
  replace (Z.of_nat (length l1 + 1) - 1) with (Z.of_nat (length l1)) by lia.
  destruct (Z.ltb_spec (Z.of_nat (length l1)) 0); [lia|].
  rewrite Nat2Z.id. rewrite nth_error_app2 by apply Nat.le_refl.
  rewrite Nat.sub_diag. reflexivity.
Qed.

(** The element before the first occurrence of [s] in a sorted list is the
    greatest element strictly below [s]. *)
Lemma sorted_predecessor (l1 : list string) (p s : string) (l2 : list string) :
  StronglySorted le_str (l1 ++ p :: s :: l2)%list ->
  ~ In s (l1 ++ [p])%list ->
  String.ltb p s = true /\
  forall x, In x (l1 ++ p :: s :: l2)%list -> String.ltb x s = true ->
            String.leb x p = true.
Proof.
  intros S Hn.
  assert (Hps : le_str p s /\ Forall (le_str s) l2 /\ Forall (fun x => le_str x p) l1).
  { clear Hn. induction l1 as [|y t IH]; simpl in S.
    - inversion S as [|? ? S' Hp]; subst. inversion S' as [|? ? _ Hs]; subst.
      inversion Hp; subst. repeat split; auto.
    - inversion S as [|? ? S' Hy]; subst.
      destruct (IH S') as (H1 & H2 & H3). repeat split; auto.
      constructor; [|exact H3].
      rewrite Forall_forall in Hy. apply Hy. apply in_or_app. right. left. reflexivity. }
  destruct Hps as (Hps & Hl2 & Hl1).
  assert (Hne : p <> s).
  { intros ->. apply Hn. apply in_or_app. right. left. reflexivity. }
  split.
  - rewrite ltb_leb. destruct (String.leb s p) eqn:E; [|reflexivity].
    exfalso. apply Hne. apply String.leb_antisym; assumption.
  - intros x Hx Hlt. rewrite ltb_leb in Hlt.
    apply in_app_or in Hx. destruct Hx as [Hx|[<-|[<-|Hx]]].
    + rewrite Forall_forall in Hl1. exact (Hl1 x Hx).
    + apply leb_refl.
    + rewrite leb_refl in Hlt. discriminate.
    + rewrite Forall_forall in Hl2. rewrite (Hl2 x Hx) in Hlt. discriminate.
Qed.

End Sorting.

(** ** Rank check *)

Section Rank.

Lemma truthy_str_Some (s : string) : s <> "" -> truthy_str (Some s) = true.
Proof.
  intros H. unfold truthy_str. apply String.eqb_neq in H. rewrite H. reflexivity.
Qed.

Lemma listed_error_not_acquired (c : ctx) (e : Exception) (f : callback)
    (children : list string) :
  ~ In (CallCb f [VNull; VCtx])
       (snd (exec (getChildren_listed (Some e) children) c)).
Proof.
  destruct c as [rn rid t mx w cb0 sq acq lst cc]. js.
  destruct (truthy_str sq); js; [|destruct cb0; js]; simpl;
    intros F; repeat (destruct F as [F|F]; [discriminate F|]); exact F.
Qed.

Lemma listed_waiting (c : ctx) (s : string) (children : list string) :
  seqZnode c = Some s -> ~ smallest s children ->
  exec (getChildren_listed None children) c =
    (with_lastChildId (before s children) c,
     [Log OnDebug [VString "Children of %s are: %j."; VString (resourceName c);
                   VList (sort children)];
      ClientExists (resourceName c ++ "/" ++ tmpl (before s children))
                   (negb (truthy_num (maxRetryCount c)))]).
Proof.
  intros Hseq Hs. unfold before.
  destruct c as [rn rid t mx w cb0 sq acq lst cc]. simpl in Hseq. subst sq.
  assert (E : strict_eq (Some s) (at_index (sort children) 0) = false).
  { destruct (strict_eq (Some s) (at_index (sort children) 0)) eqn:E; [|reflexivity].
    apply head_is_smallest in E. contradiction. }
  js. rewrite E. reflexivity.
Qed.

Lemma before_listed (s : string) (children : list string) :
  In s children -> ~ smallest s children ->
  exists p,
    before s children = Some p /\ In p children /\ String.ltb p s = true /\
    forall x, In x children -> String.ltb x s = true -> String.leb x p = true.
Proof.
  intros Hin Hs. unfold before.
  assert (Hin' : In s (sort children)) by (apply sort_In; exact Hin).
  destruct (findIndex_first _ s (sort children) (same_as_seqZnode s) Hin')
    as (l1 & l2 & Esort & Hn & Hidx).
  destruct l1 as [|a l1] using rev_ind.
  { exfalso. apply Hs. apply head_is_smallest. rewrite Esort.
    unfold at_index. simpl. apply String.eqb_refl. }
  clear IHl1. rewrite <- app_assoc in Esort. simpl in Esort.
  pose proof (sort_sorted children) as S. rewrite Esort in S.
  destruct (sorted_predecessor l1 a s l2 S Hn) as [Hlt Hmax].
  exists a. repeat split.
  - rewrite Hidx, Esort. apply at_index_app_last.
  - apply sort_In. rewrite Esort. apply in_or_app. right. left. reflexivity.
  - exact Hlt.
  - intros x Hx. apply Hmax. rewrite <- Esort. apply sort_In. exact Hx.
Qed.

End Rank.

(** X15.  When the children have been listed, the session whose node is
    [s] is acquired (the caller's callback is called with [(null, ctx)] and
    [acquiredResource] is [resourceName/s]) if and only if the listing
    succeeded and [s] is the lexicographically smallest child.  When it is
    not the smallest, nothing is reported to the caller, the held path is
    untouched and the existence of [resourceName/lastChildId] is checked;
    and if [s] is among the children, [lastChildId] is the element just
    before [s] in the sorted list, the greatest child below [s]. *)
Theorem getChildren_rank (c : ctx) (s : string) (f : callback)
    (err : option Exception) (children : list string) :
  seqZnode c = Some s -> cb c = Some f ->
  let c' := fst (exec (getChildren_listed err children) c) in
  let out := snd (exec (getChildren_listed err children) c) in
  ((In (CallCb f [VNull; VCtx]) out /\
    acquiredResource c' = Some (resourceName c ++ "/" ++ s))
   <-> (err = None /\ smallest s children)) /\
  (err = None -> ~ smallest s children ->
     acquiredResource c' = acquiredResource c /\
     Forall (fun e => is_callback e = false) out /\
     In (ClientExists (resourceName c ++ "/" ++ tmpl (lastChildId c'))
           (negb (truthy_num (maxRetryCount c)))) out) /\
  (err = None -> In s children -> ~ smallest s children ->
     exists l1 p l2,
       sort children = (l1 ++ p :: s :: l2)%list /\ ~ In s (l1 ++ [p])%list /\
       lastChildId c' = Some p /\
       String.ltb p s = true /\
       forall x, In x children -> String.ltb x s = true -> String.leb x p = true).
Proof.
  intros Hseq Hcb c' out.
  destruct err as [e|].
  { split; [|split; intros; discriminate].
    split; [|intros [F _]; discriminate].
    intros [F _]. exfalso. exact (listed_error_not_acquired c e f children F). }
  pose proof (head_is_smallest s children) as Hhead.
  subst c' out. destruct c as [rn rid t mx w cb0 sq acq lst cc].
  simpl in Hseq, Hcb. subst sq cb0. js.
  destruct (strict_eq (Some s) (at_index (sort children) 0)) eqn:E.
  - assert (Hs : smallest s children) by (apply Hhead; reflexivity).
    js. destruct (truthy_num t); js; simpl.
    all: split; [|split; [intros _ F | intros _ _ F]; contradiction].
    all: split; [intros _; split; [reflexivity | exact Hs]|].
    all: intros _; split; [tauto | reflexivity].
  - assert (Hs : ~ smallest s children).
    { intros F. apply Hhead in F. congruence. }
    js. split; [|split].
    + split; [|intros [_ F]; contradiction].
      simpl. intros [[F|[F|[]]] _]; discriminate.
    + intros _ _. repeat split.
      * repeat constructor.
      * simpl. right. left. reflexivity.
    + intros _ Hin _.
      assert (Hin' : In s (sort children)) by (apply sort_In; exact Hin).
      destruct (findIndex_first _ s (sort children) (same_as_seqZnode s) Hin')
        as (l1 & l2 & Esort & Hn & Hidx).
      destruct l1 as [|a l1] using rev_ind.
      { exfalso. rewrite Esort in E. unfold at_index in E. simpl in E.
        rewrite String.eqb_refl in E. discriminate. }
      clear IHl1.
      exists l1, a, l2. rewrite <- app_assoc in Esort. simpl in Esort.
      pose proof (sort_sorted children) as S. rewrite Esort in S.
      destruct (sorted_predecessor l1 a s l2 S Hn) as [Hlt Hmax].
      repeat split; try assumption.
      * rewrite Hidx. rewrite Esort. apply at_index_app_last.
      * intros x Hx. apply Hmax. rewrite <- Esort. apply sort_In. exact Hx.
Qed.

Lemma getChildren_rank_witness :
  exists p,
    lastChildId (fst (exec (getChildren_listed None ["x0000000002"; "x0000000001"])
                        demo_queued)) = Some p /\
    String.ltb p "x0000000002" = true.
Proof.
  destruct (getChildren_rank demo_queued "x0000000002" (UserCb 0) None
              ["x0000000002"; "x0000000001"] eq_refl eq_refl)
    as (_ & _ & H).
  destruct H as (l1 & p & l2 & _ & _ & Hlast & Hlt & _).
  - reflexivity.
  - simpl. auto.
  - intros [_ F].
    specialize (F "x0000000001" (or_intror (or_introl eq_refl))).
    discriminate.
  - exists p. split; assumption.
Defined.

(** C1, at the input where the code departs from it.  The session's node
    x0000000002 is not among the listed children, which are
    [x0000000001]: it is not the smallest, so by the claim the session
    should wait on its preceding sibling x0000000001.  The code finds the
    index -1, stores [undefined] in [lastChildId] and checks the existence
    of /locks/a/undefined; that node does not exist, so the children are
    listed again at once, with the same result: the session never checks
    x0000000001 and goes round between [getChildren] and [exists], with a
    watch left behind at every turn.  With a retry limit the rounds are
    not counted either: no timer is set and the collision count stays
    undefined. *)
Theorem unlisted_node_waits_on_no_sibling :
  let rounds := [Listed None ["x0000000001"]; Checked None None 0;
                 Listed None ["x0000000001"]; Checked None None 0] in
  ~ smallest "x0000000002" ["x0000000001"] /\
  before "x0000000002" ["x0000000001"] = None /\
  (exists w,
     run rounds (mkWorld demo_queued [PListed] []) = Some w /\
     lastChildId (session w) = None /\
     acquiredResource (session w) = None /\
     filter is_store_call (output w) =
       [ClientExists "/locks/a/undefined" true; ClientGetChildren "/locks/a";
        ClientExists "/locks/a/undefined" true; ClientGetChildren "/locks/a"] /\
     filter is_callback (output w) = [] /\
     outstanding w = [PWatch; PWatch; PListed]) /\
  (exists w,
     run rounds demo_polling = Some w /\
     lastChildId (session w) = None /\
     collisionCount (session w) = None /\
     filter is_store_call (output w) =
       [ClientExists "/locks/a/undefined" false; ClientGetChildren "/locks/a";
        ClientExists "/locks/a/undefined" false; ClientGetChildren "/locks/a"] /\
     filter is_retry (output w) = [] /\
     filter is_callback (output w) = [] /\
     outstanding w = [PListed]).
Proof.
  cbv zeta. split; [| split; [| split]].
  - intros [[F | []] _]. discriminate F.
  - reflexivity.
  - eexists. split; [vm_compute; reflexivity |].
    repeat split.
  - eexists. split; [vm_compute; reflexivity |].
    repeat split.
Qed.

(** ** Failure path *)

(** C2, as the code has it.  When an attempt fails after its node [s] was
    created, [lockFailed] logs the reason, asks the store to remove
    [resourceName/s] and calls nothing else; the caller's callback is called
    only from the removal's callback, whatever the removal's outcome, and
    always with the fixed message ['unable to acquire lock'], which is an
    error.  A failed listing and a failed existence check both take this
    path. *)
Theorem lockFailed_cleanup (c : ctx) (s : string) (f : callback) (err : string) :
  seqZnode c = Some s -> s <> "" -> cb c = Some f ->
  let path := resourceName c ++ "/" ++ s in
  exec (lockFailed err) c =
    (c, [Log OnError [VString "unable to acquire lock"; VString err];
         Log OnDebug [VString "lock failed, cleaning up existing sequential znode";
                      VString path];
         ClientRemove path (-1) LockFailedRemoved]) /\
  (forall removal : option Exception,
     exec (lockFailed_removed removal) c =
       (c, [CallCb f [VString "unable to acquire lock"]])) /\
  reports_error [VString "unable to acquire lock"] = true /\
  (forall e children,
     exec (getChildren_listed (Some e) children) c =
       (c, Log OnDebug [VString "Failed to list children of %s due to: %s.";
                        VString (resourceId c); VErr e]
           :: snd (exec (lockFailed "Failed to list ZNode children") c))) /\
  (forall e stat random,
     let msg := "unable to check the existence of "
                ++ resourceName c ++ "/" ++ tmpl (lastChildId c) in
     exec (exists_checked (Some e) stat random) c =
       (c, Log OnError [VString msg] :: snd (exec (lockFailed msg) c))).
Proof.
  intros Hseq Hs Hcb path. subst path.
  pose proof (truthy_str_Some s Hs) as Ht.
  destruct c as [rn rid t mx w cb0 sq acq lst cc].
  simpl in Hseq, Hcb. subst sq cb0.
  repeat split; intros; js; rewrite Ht; reflexivity.
Qed.

Lemma lockFailed_cleanup_witness :
  exec (lockFailed "Failed to list ZNode children") demo_queued =
    (demo_queued,
     [Log OnError [VString "unable to acquire lock";
                   VString "Failed to list ZNode children"];
      Log OnDebug [VString "lock failed, cleaning up existing sequential znode";
                   VString "/locks/a/x0000000002"];
      ClientRemove "/locks/a/x0000000002" (-1) LockFailedRemoved]).
Proof.
  apply (lockFailed_cleanup demo_queued "x0000000002" (UserCb 0)
           "Failed to list ZNode children").
  - reflexivity.
  - discriminate.
  - reflexivity.
Defined.

(** C2, as stated, fails: the listing fails with a connection loss, the
    removal fails too, and the caller is told ['unable to acquire lock'];
    the reason of the failure, ['Failed to list ZNode children'], is logged
    and never passed to the callback. *)
Lemma lockFailed_reason_not_forwarded :
  let reason := "Failed to list ZNode children" in
  let '(c1, out1) :=
    exec (getChildren_listed (Some (mkException (-4))) []) demo_queued in
  let '(c2, out2) := exec (lockFailed_removed (Some (mkException NO_NODE))) c1 in
  In (Log OnError [VString "unable to acquire lock"; VString reason]) out1 /\
  filter is_callback (out1 ++ out2)
    = [CallCb (UserCb 0) [VString "unable to acquire lock"]] /\
  ~ In (CallCb (UserCb 0) [VString reason]) (out1 ++ out2).
Proof.
  vm_compute. split; [|split].
  - right. left. reflexivity.
  - reflexivity.
  - intros F. repeat (destruct F as [F|F]; [discriminate F|]). exact F.
Qed.

(** ** Waking up *)

Section Wake.

(** The success callback is only ever called from the listing callback, and
    only when the node is the first of the sorted children. *)
Lemma acquired_only_when_listed (ev : event) (c : ctx) (f : callback) :
  In (CallCb f [VNull; VCtx]) (snd (exec (handler ev) c)) ->
  exists children,
    ev = Listed None children /\
    strict_eq (seqZnode c) (at_index (sort children) 0) = true.
Proof.
  destruct c as [rn rid t mx w cb0 sq acq lst cc].
  destruct ev as [| |err path|err children|err stat random| |k err|tm|g].
  4: { destruct err as [e|].
       - js. repeat (branch; js); simpl; intros F;
           repeat (destruct F as [F|F]; [discriminate F|]); contradiction.
       - js. destruct (strict_eq sq (at_index (sort children) 0)) eqn:E.
         + intros _. exists children. split; [reflexivity | exact E].
         + js. simpl. intros F.
           repeat (destruct F as [F|F]; [discriminate F|]). contradiction. }
  all: try destruct k; try destruct tm; try destruct err; try destruct stat.
  all: js; repeat (branch; js); simpl; intros F;
    repeat (destruct F as [F|F]; [discriminate F|]); contradiction.
Qed.

End Wake.

(** C4.  When the existence check finds the predecessor gone, and when the
    watch fires, the session is left as it is (nothing is acquired, no
    callback is called) and the children are listed again; the success
    callback is only ever called from the listing callback, when the node is
    the first of the freshly sorted children. *)
Theorem predecessor_gone_relists (c : ctx) (random : Q) :
  exec (handler (Checked None None random)) c =
    (c, [Log OnDebug [VString "Lock appears to be available, re-acquiring."];
         ClientGetChildren (resourceName c)]) /\
  exec (handler Watched) c = (c, [ClientGetChildren (resourceName c)]) /\
  (forall ev f,
     In (CallCb f [VNull; VCtx]) (snd (exec (handler ev) c)) ->
     exists children,
       ev = Listed None children /\
       strict_eq (seqZnode c) (at_index (sort children) 0) = true).
Proof.
  split; [|split].
  - destruct c. reflexivity.
  - destruct c. reflexivity.
  - intros ev f. apply acquired_only_when_listed.
Qed.

Lemma predecessor_gone_relists_witness :
  exists children,
    Listed None ["x0000000001"] = Listed None children /\
    strict_eq (seqZnode (with_seqZnode (Some "x0000000001") demo))
              (at_index (sort children) 0) = true.
Proof.
  apply (proj2 (proj2 (predecessor_gone_relists
                         (with_seqZnode (Some "x0000000001") demo) 0))
           (Listed None ["x0000000001"]) (UserCb 0)).
  simpl. right. right. left. reflexivity.
Defined.

(** ** Backoff

    The arithmetic of doubles, from the definitions: powers of two, the
    binary logarithm, rounding to the nearest integer and to the nearest
    double; then the window and the delay of lines 158-161. *)

(** Powers of two. *)
Section Exp2.

Lemma exp2_pos (e : Z) : (0 < exp2 e)%Q.
Proof. apply Qpower_0_lt. reflexivity. Qed.

Lemma exp2_plus (a b : Z) : (exp2 (a + b) == exp2 a * exp2 b)%Q.
Proof. apply Qpower_plus. discriminate. Qed.

Lemma exp2_le (a b : Z) : a <= b -> (exp2 a <= exp2 b)%Q.
Proof. intros H. apply Qpower_le_compat_l; [exact H | discriminate]. Qed.

Lemma exp2_lt (a b : Z) : a < b -> (exp2 a < exp2 b)%Q.
Proof. intros H. apply Qpower_lt_compat_l; [exact H | reflexivity]. Qed.

Lemma exp2_lt_inv (a b : Z) : (exp2 a < exp2 b)%Q -> a < b.
Proof. intros H. apply (Qpower_lt_compat_l_inv 2); [exact H | reflexivity]. Qed.

Lemma exp2_Z (n : Z) : 0 <= n -> (inject_Z (2 ^ n) == exp2 n)%Q.
Proof. intros H. apply (Zpower_Qpower 2 n H). Qed.

Lemma exp2_succ (a : Z) : (exp2 (a + 1) == 2 * exp2 a)%Q.
Proof. rewrite exp2_plus. change (exp2 1) with 2%Q. ring. Qed.

Lemma exp2_0 : (exp2 0 == 1)%Q.
Proof. reflexivity. Qed.

Lemma exp2_split (a b : Z) : (exp2 a == exp2 (a - b) * exp2 b)%Q.
Proof. rewrite <- exp2_plus. replace (a - b + b) with a by lia. reflexivity. Qed.

End Exp2.

(** [Qlog2] is the integer part of the binary logarithm. *)
Section Log2.

Lemma ratio_bounds (a pd dd nn q : Q) :
  (0 < a -> 0 < pd -> a * pd <= nn -> nn < 2 * (a * pd) ->
   pd <= dd -> dd < 2 * pd -> nn == q * dd ->
   a < 2 * q /\ q < 2 * a)%Q.
Proof.
  intros Pa Pd N1 N2 D1 D2 E. split.
  - assert (H : (a * dd < 2 * q * dd)%Q) by nra.
    nra.
  - assert (H : (q * dd < 2 * a * dd)%Q) by nra.
    nra.
Qed.

Lemma Qlog2_spec (q : Q) :
  (0 < q)%Q -> (exp2 (Qlog2 q) <= q)%Q /\ (q < exp2 (Qlog2 q + 1))%Q.
Proof.
  intros Hq. unfold Qlog2.
  destruct q as [n d]. cbn [Qnum Qden].
  assert (Hn : 0 < n) by (unfold Qlt in Hq; cbn in Hq; lia).
  set (ln := Z.log2 n). set (ld := Z.log2 (Z.pos d)).
  destruct (Z.log2_spec n Hn) as [N1 N2].
  destruct (Z.log2_spec (Z.pos d) (Pos2Z.is_pos d)) as [D1 D2].
  fold ln in N1, N2. fold ld in D1, D2.
  assert (Ln : 0 <= ln) by apply Z.log2_nonneg.
  assert (Ld : 0 <= ld) by apply Z.log2_nonneg.
  assert (Qn1 : (exp2 ln <= inject_Z n)%Q).
  { rewrite <- exp2_Z by exact Ln. rewrite <- Zle_Qle. exact N1. }
  assert (Qn2 : (inject_Z n < exp2 (ln + 1))%Q).
  { rewrite <- exp2_Z by lia. rewrite <- Zlt_Qlt. exact N2. }
  assert (Qd1 : (exp2 ld <= inject_Z (Z.pos d))%Q).
  { rewrite <- exp2_Z by exact Ld. rewrite <- Zle_Qle. exact D1. }
  assert (Qd2 : (inject_Z (Z.pos d) < exp2 (ld + 1))%Q).
  { rewrite <- exp2_Z by lia. rewrite <- Zlt_Qlt. exact D2. }
  assert (E : (inject_Z n == (n # d) * inject_Z (Z.pos d))%Q).
  { rewrite (Qmake_Qdiv n d). field. discriminate. }
  rewrite exp2_succ in Qn2, Qd2.
  rewrite (exp2_split ln ld) in Qn1, Qn2.
  destruct (ratio_bounds _ _ _ _ _ (exp2_pos (ln - ld)) (exp2_pos ld)
              Qn1 Qn2 Qd1 Qd2 E) as [B1 B2].
  destruct (Qle_bool (exp2 (ln - ld)) (n # d)) eqn:B.
  - apply Qle_bool_iff in B. split; [exact B |].
    rewrite exp2_succ. exact B2.
  - assert (B' : (n # d < exp2 (ln - ld))%Q).
    { apply Qnot_le_lt. intros H. apply Qle_bool_iff in H. congruence. }
    replace (ln - ld - 1 + 1) with (ln - ld) by lia.
    split; [| exact B'].
    rewrite (exp2_split (ln - ld) 1) in B1. change (exp2 1) with 2%Q in B1.
    lra.
Qed.

Lemma Qlog2_unique (q : Q) (e : Z) :
  (exp2 e <= q)%Q -> (q < exp2 (e + 1))%Q -> Qlog2 q = e.
Proof.
  intros H1 H2.
  assert (Hq : (0 < q)%Q) by (pose proof (exp2_pos e); lra).
  destruct (Qlog2_spec q Hq) as [S1 S2].
  assert (A : e < Qlog2 q + 1).
  { apply exp2_lt_inv. lra. }
  assert (B : Qlog2 q < e + 1).
  { apply exp2_lt_inv. lra. }
  lia.
Qed.

Lemma Qlog2_le (p q : Q) : (0 < p)%Q -> (p <= q)%Q -> Qlog2 p <= Qlog2 q.
Proof.
  intros Hp H.
  destruct (Qlog2_spec p Hp) as [P1 P2].
  destruct (Qlog2_spec q) as [Q1 Q2]; [lra |].
  assert (A : Qlog2 p < Qlog2 q + 1) by (apply exp2_lt_inv; lra).
  lia.
Qed.

Lemma Qlog2_comp (p q : Q) : (0 < p)%Q -> (p == q)%Q -> Qlog2 p = Qlog2 q.
Proof.
  intros Hp E. destruct (Qlog2_spec p Hp) as [P1 P2].
  symmetry. apply Qlog2_unique; rewrite <- E; assumption.
Qed.

Lemma Qlog2_exp2 (e : Z) : Qlog2 (exp2 e) = e.
Proof. apply Qlog2_unique; [lra | apply exp2_lt; lia]. Qed.

End Log2.

(** Rounding to the nearest integer: within a half, monotone, and the
    identity on integers. *)
Section Rne.

Lemma rne_floor (x : Q) : Qfloor x <= rne x <= Qfloor x + 1.
Proof.
  unfold rne. destruct (Qcompare _ _); [destruct (Z.even _) | |]; lia.
Qed.

Lemma rne_le_int (x : Q) (n : Z) : (x <= inject_Z n)%Q -> rne x <= n.
Proof.
  intros H. pose proof (Qfloor_resp_le _ _ H) as F. rewrite Qfloor_Z in F.
  pose proof (rne_floor x) as R.
  destruct (Z.eq_dec (Qfloor x) n) as [E | NE]; [| lia].
  unfold rne. rewrite E.
  destruct (Qcompare_spec (x - inject_Z n) (1 # 2)) as [C | C | C];
    try lia; lra.
Qed.

Lemma rne_ge_int (x : Q) (n : Z) : (inject_Z n <= x)%Q -> n <= rne x.
Proof.
  intros H. pose proof (Qfloor_resp_le _ _ H) as F. rewrite Qfloor_Z in F.
  pose proof (rne_floor x). lia.
Qed.

Lemma rne_int (n : Z) : rne (inject_Z n) = n.
Proof.
  pose proof (rne_le_int (inject_Z n) n (Qle_refl _)).
  pose proof (rne_ge_int (inject_Z n) n (Qle_refl _)). lia.
Qed.

Lemma rne_below_half (x : Q) (n : Z) :
  (x < inject_Z n + (1 # 2))%Q -> rne x <= n.
Proof.
  intros H. pose proof (Qfloor_le x) as F.
  assert (L : Qfloor x < n + 1).
  { rewrite Zlt_Qlt. rewrite inject_Z_plus. change (inject_Z 1) with 1%Q. lra. }
  pose proof (rne_floor x) as R.
  destruct (Z.eq_dec (Qfloor x) n) as [E | NE]; [| lia].
  unfold rne. rewrite E.
  destruct (Qcompare_spec (x - inject_Z n) (1 # 2)) as [C | C | C];
    try lia; lra.
Qed.

Lemma rne_half (x : Q) :
  (inject_Z (rne x) - (1 # 2) <= x)%Q /\ (x <= inject_Z (rne x) + (1 # 2))%Q.
Proof.
  pose proof (Qfloor_le x) as F. pose proof (Qlt_floor x) as G.
  rewrite inject_Z_plus in G. change (inject_Z 1) with 1%Q in G.
  unfold rne.
  destruct (Qcompare_spec (x - inject_Z (Qfloor x)) (1 # 2)) as [C | C | C];
    [destruct (Z.even _) | |];
    rewrite ?inject_Z_plus; change (inject_Z 1) with 1%Q; lra.
Qed.

Lemma rne_mono (x y : Q) : (x <= y)%Q -> rne x <= rne y.
Proof.
  intros H. pose proof (Qfloor_resp_le _ _ H) as F.
  pose proof (rne_floor x) as Rx. pose proof (rne_floor y) as Ry.
  destruct (Z.eq_dec (Qfloor x) (Qfloor y)) as [E | NE]; [| lia].
  unfold rne. rewrite E.
  destruct (Qcompare_spec (x - inject_Z (Qfloor y)) (1 # 2)) as [C | C | C];
    destruct (Qcompare_spec (y - inject_Z (Qfloor y)) (1 # 2)) as [D | D | D];
    try destruct (Z.even _); try lia; lra.
Qed.

Lemma rne_comp (x y : Q) : (x == y)%Q -> rne x = rne y.
Proof.
  intros E. assert (A : (x <= y)%Q) by lra. assert (B : (y <= x)%Q) by lra.
  pose proof (rne_mono x y A). pose proof (rne_mono y x B). lia.
Qed.

End Rne.

(** Rounding to the nearest double, before overflow: multiples of the unit
    in the last place bound it, and it is monotone. *)
Section Nearest.

Lemma ulp_exp_le (p q : Q) : (0 < p)%Q -> (p <= q)%Q -> ulp_exp p <= ulp_exp q.
Proof.
  intros Hp H. unfold ulp_exp. pose proof (Qlog2_le p q Hp H). lia.
Qed.

Lemma ulp_exp_comp (p q : Q) : (0 < p)%Q -> (p == q)%Q -> ulp_exp p = ulp_exp q.
Proof. intros Hp E. unfold ulp_exp. rewrite (Qlog2_comp p q Hp E). reflexivity. Qed.

Lemma nearest_grid_le (x : Q) (n : Z) :
  (x <= inject_Z n * exp2 (ulp_exp x))%Q ->
  (nearest x <= inject_Z n * exp2 (ulp_exp x))%Q.
Proof.
  intros H. unfold nearest. pose proof (exp2_pos (ulp_exp x)) as U.
  apply Qmult_le_compat_r; [| lra].
  rewrite <- Zle_Qle. apply rne_le_int.
  apply Qle_shift_div_r; assumption.
Qed.

Lemma nearest_grid_ge (x : Q) (n : Z) :
  (inject_Z n * exp2 (ulp_exp x) <= x)%Q ->
  (inject_Z n * exp2 (ulp_exp x) <= nearest x)%Q.
Proof.
  intros H. unfold nearest. pose proof (exp2_pos (ulp_exp x)) as U.
  apply Qmult_le_compat_r; [| lra].
  rewrite <- Zle_Qle. apply rne_ge_int.
  apply Qle_shift_div_l; assumption.
Qed.

Lemma nearest_nonneg (x : Q) : (0 < x)%Q -> (0 <= nearest x)%Q.
Proof.
  intros H. pose proof (nearest_grid_ge x 0) as G.
  change (inject_Z 0) with 0%Q in G. lra.
Qed.

Lemma nearest_upper (x : Q) :
  (0 < x)%Q -> (nearest x <= exp2 (ulp_exp x + 53))%Q.
Proof.
  intros H. destruct (Qlog2_spec x H) as [_ S].
  assert (E : (exp2 (ulp_exp x + 53) == inject_Z (2 ^ 53) * exp2 (ulp_exp x))%Q).
  { rewrite exp2_Z by lia. rewrite Z.add_comm. apply exp2_plus. }
  rewrite E. apply nearest_grid_le. rewrite <- E.
  apply Qle_trans with (exp2 (Qlog2 x + 1)); [lra |].
  apply exp2_le. unfold ulp_exp. lia.
Qed.

Lemma nearest_lower (x : Q) :
  (0 < x)%Q -> -1022 <= Qlog2 x -> (exp2 (Qlog2 x) <= nearest x)%Q.
Proof.
  intros H N. destruct (Qlog2_spec x H) as [S _].
  assert (E : (exp2 (Qlog2 x) == inject_Z (2 ^ 52) * exp2 (ulp_exp x))%Q).
  { rewrite exp2_Z by lia. rewrite <- exp2_plus. unfold ulp_exp.
    replace (52 + (Z.max (Qlog2 x) (-1022) - 52)) with (Qlog2 x) by lia.
    reflexivity. }
  rewrite E. apply nearest_grid_ge. rewrite <- E. exact S.
Qed.

Lemma nearest_mono (p q : Q) :
  (0 < p)%Q -> (p <= q)%Q -> (nearest p <= nearest q)%Q.
Proof.
  intros Hp H. pose proof (ulp_exp_le p q Hp H) as U.
  destruct (Z.eq_dec (ulp_exp p) (ulp_exp q)) as [E | NE].
  - unfold nearest. rewrite E. pose proof (exp2_pos (ulp_exp q)) as P.
    apply Qmult_le_compat_r; [| lra].
    rewrite <- Zle_Qle. apply rne_mono.
    apply Qle_shift_div_r; [exact P |].
    assert (D : (q / exp2 (ulp_exp q) * exp2 (ulp_exp q) == q)%Q)
      by (field; lra).
    lra.
  - apply Qle_trans with (exp2 (ulp_exp p + 53)).
    + apply nearest_upper. exact Hp.
    + assert (Hq : (0 < q)%Q) by lra.
      assert (N : -1022 <= Qlog2 q) by (unfold ulp_exp in *; lia).
      apply Qle_trans with (exp2 (Qlog2 q)).
      * apply exp2_le. unfold ulp_exp in *. lia.
      * apply nearest_lower; assumption.
Qed.

Lemma nearest_comp (p q : Q) : (0 < p)%Q -> (p == q)%Q -> (nearest p == nearest q)%Q.
Proof.
  intros Hp E. assert (Hq : (0 < q)%Q) by lra.
  apply Qle_antisym; apply nearest_mono; lra.
Qed.

End Nearest.

(** A fraction [x <= (1 - 2^-53) * nearest a] of a rounded number rounds
    to at most [a] itself: what rounding [a] up may add, the factor takes
    away again. *)
Section Scaling.

Lemma nearest_below_one (x : Q) :
  (0 < x)%Q -> (x <= 1 - exp2 (-53))%Q -> (nearest x < 1)%Q.
Proof.
  intros Hx H.
  apply Qle_lt_trans with (inject_Z (2 ^ 53 - 1) * exp2 (-53))%Q;
    [| reflexivity].
  apply Qle_trans with (nearest (1 - exp2 (-53))).
  - apply nearest_mono; assumption.
  - vm_compute. discriminate.
Qed.

Lemma scaled_below_half (g k t p u y x : Q) :
  (0 < u -> 0 < t -> t <= 1 -> t * p == 1 # 2 -> p <= g -> g <= y ->
   k - (1 # 2) <= y -> g <= k -> k <= g + 1 -> x <= (1 - t) * (k * u) ->
   x < (g + (1 # 2)) * u /\ x <= y * u)%Q.
Proof.
  intros U T T1 TP PG GY KY GK KG X.
  assert (B : (0 <= t * (g - p))%Q) by (apply Qmult_le_0_compat; lra).
  assert (C : (0 <= (1 - t) * (g + 1 - k))%Q) by (apply Qmult_le_0_compat; lra).
  assert (F : (0 <= t * (k - g))%Q) by (apply Qmult_le_0_compat; lra).
  assert (A : ((1 - t) * k < g + (1 # 2))%Q) by (clear X; lra).
  assert (E : ((1 - t) * k <= y)%Q) by (clear X; lra).
  assert (D : ((1 - t) * k * u < (g + (1 # 2)) * u)%Q)
    by (apply Qmult_lt_compat_r; assumption).
  assert (G : ((1 - t) * k * u <= y * u)%Q)
    by (apply Qmult_le_compat_r; lra).
  assert (X' : (x <= (1 - t) * k * u)%Q) by (rewrite <- Qmult_assoc; exact X).
  clear X. revert X' D G.
  generalize ((1 - t) * k * u)%Q ((g + (1 # 2)) * u)%Q (y * u)%Q.
  intros; split; lra.
Qed.

Lemma nearest_scaled (a x : Q) :
  (1 <= a)%Q -> (0 < x)%Q -> (x <= (1 - exp2 (-53)) * nearest a)%Q ->
  (nearest x <= a)%Q.
Proof.
  intros Ha Hx H.
  assert (Pa : (0 < a)%Q) by lra.
  assert (L0 : 0 <= Qlog2 a).
  { change 0 with (Qlog2 1). apply Qlog2_le; [reflexivity | exact Ha]. }
  destruct (Qlog2_spec a Pa) as [S _].
  set (e := ulp_exp a) in *.
  assert (Ee : Qlog2 a = e + 52) by (unfold e, ulp_exp; lia).
  pose proof (exp2_pos e) as U.
  set (y := (a / exp2 e)%Q).
  assert (Ey : (a == y * exp2 e)%Q) by (unfold y; field; lra).
  assert (P52 : (exp2 52 <= y)%Q).
  { unfold y. apply Qle_shift_div_l; [exact U |].
    rewrite <- exp2_plus. rewrite Z.add_comm, <- Ee. exact S. }
  assert (G52 : (exp2 52 <= inject_Z (Qfloor y))%Q).
  { rewrite <- exp2_Z by lia. rewrite <- Zle_Qle.
    rewrite <- (Qfloor_Z (2 ^ 52)). apply Qfloor_resp_le.
    rewrite exp2_Z by lia. exact P52. }
  pose proof (Qfloor_le y) as GY.
  destruct (rne_half y) as [KY _].
  assert (KG : (inject_Z (rne y) <= inject_Z (Qfloor y) + 1)%Q).
  { change 1%Q with (inject_Z 1). rewrite <- inject_Z_plus, <- Zle_Qle.
    apply rne_floor. }
  assert (T : (exp2 (-53) * exp2 52 == 1 # 2)%Q) by reflexivity.
  assert (GK : (inject_Z (Qfloor y) <= inject_Z (rne y))%Q).
  { rewrite <- Zle_Qle. apply rne_floor. }
  destruct (scaled_below_half (inject_Z (Qfloor y)) (inject_Z (rne y))
              (exp2 (-53)) (exp2 52) (exp2 e) y x) as [X Xa];
    try assumption; try reflexivity; try discriminate.
  rewrite <- Ey in Xa.
  pose proof (ulp_exp_le x a Hx Xa) as UE. fold e in UE.
  destruct (Z.eq_dec (ulp_exp x) e) as [E | NE].
  - apply Qle_trans with (inject_Z (Qfloor y) * exp2 e)%Q.
    + unfold nearest. rewrite E.
      apply Qmult_le_compat_r; [| lra].
      rewrite <- Zle_Qle. apply rne_below_half.
      apply Qlt_shift_div_r; assumption.
    + rewrite Ey. apply Qmult_le_compat_r; lra.
  - apply Qle_trans with (exp2 (ulp_exp x + 53)).
    + apply nearest_upper. exact Hx.
    + apply Qle_trans with (exp2 (Qlog2 a)); [| exact S].
      apply exp2_le. lia.
Qed.

End Scaling.

(** [round64] on positive numbers: finite or Infinity. *)
Section Round64.

Lemma round64_pos (a : Q) :
  (0 < a)%Q ->
  round64 a = if Qle_bool (exp2 1024) (nearest a) then PosInf
              else Fin (Qred (nearest a)).
Proof.
  intros H. unfold round64. apply Qgt_alt in H. rewrite H. reflexivity.
Qed.

Lemma round64_zero (a : Q) : (a == 0)%Q -> round64 a = Fin 0.
Proof.
  intros H. unfold round64. apply Qeq_alt in H. rewrite H. reflexivity.
Qed.

Lemma round64_comp (a b : Q) : (0 < a)%Q -> (a == b)%Q -> round64 a = round64 b.
Proof.
  intros H E. assert (Hb : (0 < b)%Q) by lra.
  rewrite (round64_pos a H), (round64_pos b Hb).
  pose proof (nearest_comp a b H E) as N.
  rewrite (Qred_complete _ _ N). rewrite N. reflexivity.
Qed.

Lemma round64_finite (a q : Q) :
  (0 < a)%Q -> round64 a = Fin q ->
  (q == nearest a)%Q /\ (nearest a < exp2 1024)%Q /\ (a < exp2 1024)%Q.
Proof.
  intros H R. rewrite (round64_pos a H) in R.
  destruct (Qle_bool (exp2 1024) (nearest a)) eqn:B; [discriminate |].
  injection R as <-.
  assert (N : (nearest a < exp2 1024)%Q).
  { apply Qnot_le_lt. intros C. apply Qle_bool_iff in C. congruence. }
  split; [exact (Qred_correct (nearest a)) | split; [exact N |]].
  apply Qnot_le_lt. intros C.
  assert (L : 1024 <= Qlog2 a).
  { rewrite <- (Qlog2_exp2 1024). apply Qlog2_le; [apply exp2_pos | exact C]. }
  pose proof (nearest_lower a H ltac:(lia)) as Lo.
  pose proof (exp2_le 1024 (Qlog2 a) L). lra.
Qed.

Lemma round64_infinite (a : Q) :
  (0 < a)%Q -> round64 a = PosInf -> (exp2 1024 <= nearest a)%Q.
Proof.
  intros H R. rewrite (round64_pos a H) in R.
  destruct (Qle_bool (exp2 1024) (nearest a)) eqn:B; [| discriminate].
  apply Qle_bool_iff. exact B.
Qed.

Lemma round64_cases (a : Q) :
  (0 < a)%Q -> round64 a = PosInf \/ exists q, round64 a = Fin q /\ (0 <= q)%Q.
Proof.
  intros H. rewrite (round64_pos a H).
  destruct (Qle_bool _ _); [left; reflexivity |].
  right. eexists. split; [reflexivity |].
  rewrite Qred_correct. apply nearest_nonneg. exact H.
Qed.

Lemma overflow_above (a b q : Q) :
  (0 < b)%Q -> round64 a = PosInf -> round64 b = Fin q -> (0 < a)%Q -> (b < a)%Q.
Proof.
  intros Hb Ra Rb Ha. apply Qnot_le_lt. intros C.
  pose proof (round64_infinite a Ha Ra) as I.
  destruct (round64_finite b q Hb Rb) as (_ & F & _).
  pose proof (nearest_mono a b Ha C). lra.
Qed.

End Round64.

(** [Math.pow(2, n)]: zero, the power of two, or Infinity. *)
Section Powers.

Lemma nearest_exp2 (c : Z) : -1074 <= c -> (nearest (exp2 c) == exp2 c)%Q.
Proof.
  intros H. unfold nearest.
  set (e := ulp_exp (exp2 c)).
  assert (E : e = Z.max c (-1022) - 52)
    by (unfold e, ulp_exp; rewrite Qlog2_exp2; reflexivity).
  pose proof (exp2_pos e) as U.
  assert (D : (exp2 c / exp2 e == inject_Z (2 ^ (c - e)))%Q).
  { rewrite exp2_Z by lia. rewrite (exp2_split c e). field. lra. }
  rewrite (rne_comp _ _ D), rne_int.
  rewrite exp2_Z by lia. symmetry. apply exp2_split.
Qed.

Lemma nearest_exp2_tiny (c : Z) : c < -1074 -> (nearest (exp2 c) == 0)%Q.
Proof.
  intros H. unfold nearest.
  set (e := ulp_exp (exp2 c)).
  assert (E : e = -1074)
    by (unfold e, ulp_exp; rewrite Qlog2_exp2; lia).
  pose proof (exp2_pos e) as U. pose proof (exp2_pos (c - e)) as V.
  assert (D : (exp2 c / exp2 e == exp2 (c - e))%Q).
  { rewrite (exp2_split c e). field. lra. }
  assert (Hi : (exp2 (c - e) <= 1 # 2)%Q).
  { change (1 # 2)%Q with (exp2 (-1)). apply exp2_le. lia. }
  assert (R : rne (exp2 c / exp2 e) = 0).
  { rewrite (rne_comp _ _ D).
    pose proof (rne_mono _ _ Hi) as A. change (rne (1 # 2)) with 0 in A.
    pose proof (rne_ge_int (exp2 (c - e)) 0) as B.
    change (inject_Z 0) with 0%Q in B. specialize (B ltac:(lra)). lia. }
  rewrite R. ring.
Qed.

Lemma pow2_cases (c : Z) :
  (c < -1074 /\ pow2 c = Fin 0) \/
  (-1074 <= c < 1024 /\ exists p, pow2 c = Fin p /\ (p == exp2 c)%Q) \/
  (1024 <= c /\ pow2 c = PosInf).
Proof.
  unfold pow2. rewrite (round64_pos _ (exp2_pos c)).
  destruct (Z_lt_le_dec c (-1074)) as [A | A].
  - left. split; [exact A |].
    pose proof (nearest_exp2_tiny c A) as N.
    rewrite (Qred_complete _ _ N). rewrite N. reflexivity.
  - right. pose proof (nearest_exp2 c A) as N.
    assert (R : Qle_bool (exp2 1024) (nearest (exp2 c))
                = Qle_bool (exp2 1024) (exp2 c)) by (rewrite N; reflexivity).
    rewrite (Qred_complete _ _ N), R.
    destruct (Z_lt_le_dec c 1024) as [B | B].
    + left. split; [lia |].
      assert (F : Qle_bool (exp2 1024) (exp2 c) = false).
      { destruct (Qle_bool (exp2 1024) (exp2 c)) eqn:G; [| reflexivity].
        apply Qle_bool_iff in G. pose proof (exp2_lt c 1024 B). lra. }
      rewrite F. eexists. split; [reflexivity | apply Qred_correct].
    + right. split; [exact B |].
      assert (F : Qle_bool (exp2 1024) (exp2 c) = true).
      { apply Qle_bool_iff. apply exp2_le. exact B. }
      rewrite F. reflexivity.
Qed.

End Powers.

(** A double below 1 is at most 1 - 2^-53. *)
Section Window.

Lemma double_below_one (r : Q) :
  is_double r -> (0 <= r)%Q -> (r < 1)%Q -> (r <= 1 - exp2 (-53))%Q.
Proof.
  intros D H0 H1.
  assert (T : (exp2 (-53) <= 1 # 2)%Q) by discriminate.
  destruct (Qlt_le_dec 0 r) as [P | P]; [| lra].
  unfold is_double in D.
  destruct (round64_finite r _ P D) as (E & _ & _).
  rewrite Qred_correct in E.
  destruct (Qlog2_spec r P) as [S1 S2].
  assert (L : Qlog2 r < 0).
  { apply exp2_lt_inv. change (exp2 0) with 1%Q. lra. }
  destruct (Z_lt_le_dec (Qlog2 r) (-1)) as [A | A].
  - pose proof (exp2_le (Qlog2 r + 1) (-1) ltac:(lia)) as B.
    change (exp2 (-1)) with (1 # 2)%Q in B. lra.
  - assert (U : ulp_exp r = -53) by (unfold ulp_exp; lia).
    unfold nearest in E. rewrite U in E.
    set (k := rne (r / exp2 (-53))) in E.
    assert (K : k < 2 ^ 53).
    { rewrite Zlt_Qlt.
      assert (X : (inject_Z k * exp2 (-53) < inject_Z (2 ^ 53) * exp2 (-53))%Q).
      { rewrite <- E.
        assert (O : (inject_Z (2 ^ 53) * exp2 (-53) == 1)%Q) by reflexivity.
        rewrite O. exact H1. }
      revert X. generalize (inject_Z k) (inject_Z (2 ^ 53)). intros x y X.
      apply Qnot_le_lt. intros C.
      assert (Y : (y * exp2 (-53) <= x * exp2 (-53))%Q)
        by (apply Qmult_le_compat_r; [exact C | discriminate]).
      lra. }
    assert (K' : (inject_Z k <= inject_Z (2 ^ 53 - 1))%Q)
      by (rewrite <- Zle_Qle; lia).
    assert (X : (inject_Z k * exp2 (-53) <= inject_Z (2 ^ 53 - 1) * exp2 (-53))%Q)
      by (apply Qmult_le_compat_r; [exact K' | discriminate]).
    assert (O : (1 - exp2 (-53) == inject_Z (2 ^ 53 - 1) * exp2 (-53))%Q)
      by reflexivity.
    rewrite E, O. exact X.
Qed.

End Window.

(** The integer part of the rounded product [random * m]. *)
Section Delay.

Lemma floor_scaled (a q r m : Q) :
  (0 < a)%Q -> round64 a = Fin q -> (0 <= m)%Q -> (m <= q)%Q ->
  (0 <= r)%Q -> (r <= 1 - exp2 (-53))%Q ->
  exists d, dfloor (round64 (r * m)) = Int d /\ 0 <= d /\ (inject_Z d <= a)%Q.
Proof.
  intros Ha R M0 Mq R0 R1.
  assert (T0 : (0 < exp2 (-53))%Q) by reflexivity.
  assert (X0 : (0 <= r * m)%Q) by (apply Qmult_le_0_compat; assumption).
  destruct (Qlt_le_dec 0 (r * m)) as [P | P].
  - destruct (round64_finite a q Ha R) as (E & _ & A).
    assert (X : (r * m <= (1 - exp2 (-53)) * nearest a)%Q).
    { rewrite <- E.
      apply Qle_trans with ((1 - exp2 (-53)) * m)%Q.
      - apply Qmult_le_compat_r; assumption.
      - rewrite !(Qmult_comm (1 - exp2 (-53))).
        apply Qmult_le_compat_r; [exact Mq | lra]. }
    assert (B : (nearest (r * m) <= a)%Q \/ (nearest (r * m) < 1)%Q).
    { destruct (Qlt_le_dec a 1) as [C | C].
      - right. apply nearest_below_one; [exact P |].
        assert (N : (nearest a <= 1)%Q).
        { apply Qle_trans with (nearest 1);
            [apply nearest_mono; lra | vm_compute; discriminate]. }
        apply Qle_trans with ((1 - exp2 (-53)) * nearest a)%Q; [exact X |].
        rewrite <- (Qmult_1_r (1 - exp2 (-53))) at 2.
        rewrite !(Qmult_comm (1 - exp2 (-53))).
        apply Qmult_le_compat_r; [exact N | lra].
      - left. apply nearest_scaled; assumption. }
    pose proof (nearest_nonneg _ P) as N0.
    assert (O : (1 < exp2 1024)%Q) by (change 1%Q with (exp2 0); apply exp2_lt; lia).
    assert (F : Qle_bool (exp2 1024) (nearest (r * m)) = false).
    { destruct (Qle_bool (exp2 1024) (nearest (r * m))) eqn:G; [| reflexivity].
      apply Qle_bool_iff in G. destruct B; lra. }
    rewrite (round64_pos _ P), F. cbn [dfloor].
    rewrite (Qfloor_comp _ _ (Qred_correct _)).
    exists (Qfloor (nearest (r * m))). split; [reflexivity |].
    pose proof (Qfloor_le (nearest (r * m))) as Fl.
    split.
    + change 0 with (Qfloor 0). apply Qfloor_resp_le. exact N0.
    + destruct B as [B | B]; [lra |].
      assert (Z : Qfloor (nearest (r * m)) < 1).
      { rewrite Zlt_Qlt. change (inject_Z 1) with 1%Q. lra. }
      apply Qle_trans with 0%Q; [| lra].
      change 0%Q with (inject_Z 0). rewrite <- Zle_Qle. lia.
  - rewrite (round64_zero (r * m)) by lra.
    exists 0. split; [reflexivity | split; [lia | ]].
    change (inject_Z 0) with 0%Q. lra.
Qed.

Lemma dmin_finite (a b : double) (m : Q) :
  dmin a b = Fin m ->
  (a = Fin m /\ (b = PosInf \/ exists q, b = Fin q /\ (m <= q)%Q)) \/
  (b = Fin m /\ (a = PosInf \/ exists q, a = Fin q /\ (m <= q)%Q)).
Proof.
  destruct a as [p | | |], b as [q | | |]; cbn; try discriminate.
  - destruct (Qle_bool p q) eqn:B; intros H; injection H as <-.
    + left. split; [reflexivity |]. right. exists q.
      split; [reflexivity | apply Qle_bool_iff; exact B].
    + right. split; [reflexivity |]. right. exists p.
      split; [reflexivity |].
      apply Qlt_le_weak, Qnot_le_lt. intros C. apply Qle_bool_iff in C. congruence.
  - intros H. left. split; [exact H | left; reflexivity].
  - intros H. right. split; [exact H | left; reflexivity].
Qed.

End Delay.

(** The window [maxDelay] for a positive initial wait: never NaN nor
    negative, and when finite not above what either product rounds to. *)
Section WindowBound.

Lemma rounds_above_min (a1 a2 : Q) (m : Q) :
  (0 < a1)%Q -> (0 < a2)%Q -> dmin (round64 a1) (round64 a2) = Fin m ->
  (0 <= m)%Q /\ rounds_above m a1 /\ rounds_above m a2.
Proof.
  intros H1 H2 D.
  assert (M0 : forall a, (0 < a)%Q -> round64 a = Fin m -> (0 <= m)%Q).
  { intros a Ha R. destruct (round64_cases a Ha) as [I | (q & F & Q0)];
      rewrite R in *; [discriminate | injection F as <-; exact Q0]. }
  destruct (dmin_finite _ _ _ D) as [[A [B | (q & B & Le)]] | [A [B | (q & B & Le)]]].
  - split; [exact (M0 _ H1 A) | split].
    + exists a1, m. repeat split; try assumption; lra.
    + exists a1, m. repeat split; try assumption; try lra.
      apply Qlt_le_weak. apply (overflow_above a2 a1 m); assumption.
  - split; [exact (M0 _ H1 A) | split].
    + exists a1, m. repeat split; try assumption; lra.
    + exists a2, q. repeat split; try assumption; lra.
  - split; [exact (M0 _ H2 A) | split].
    + exists a2, m. repeat split; try assumption; try lra.
      apply Qlt_le_weak. apply (overflow_above a1 a2 m); assumption.
    + exists a2, m. repeat split; try assumption; lra.
  - split; [exact (M0 _ H2 A) | split].
    + exists a1, q. repeat split; try assumption; lra.
    + exists a2, m. repeat split; try assumption; lra.
Qed.

Lemma maxDelay_finite (count : Z) (wait m : Q) :
  (0 < wait)%Q -> maxDelay count wait = Fin m ->
  (0 <= m)%Q /\
  ((m == 0)%Q \/
   (rounds_above m (exp2 count * wait) /\ rounds_above m (wait * 10))).
Proof.
  intros Hw. unfold maxDelay.
  assert (H2 : (0 < wait * 10)%Q) by lra.
  change (dmul (Fin wait) (Fin 10)) with (round64 (wait * 10)).
  pose proof (exp2_pos count) as Pc.
  assert (H1 : (0 < exp2 count * wait)%Q) by (apply Qmult_lt_0_compat; assumption).
  destruct (pow2_cases count) as [[C E] | [[C (p & E & Ep)] | [C E]]]; rewrite E.
  - change (dmul (Fin 0) (Fin wait)) with (round64 (0 * wait)).
    rewrite (round64_zero (0 * wait)) by ring.
    intros D. destruct (round64_cases _ H2) as [I | (q & F & Q0)]; rewrite ?I, ?F in D.
    + injection D as <-. split; [lra | left; reflexivity].
    + cbn in D. destruct (Qle_bool 0 q) eqn:B.
      * injection D as <-. split; [lra | left; reflexivity].
      * apply Qle_bool_iff in Q0. congruence.
  - change (dmul (Fin p) (Fin wait)) with (round64 (p * wait)).
    assert (Hp : (0 < p * wait)%Q) by (rewrite Ep; exact H1).
    rewrite (round64_comp (p * wait) (exp2 count * wait) Hp)
      by (rewrite Ep; reflexivity).
    intros D. destruct (rounds_above_min _ _ _ H1 H2 D) as (M0 & R1 & R2).
    split; [exact M0 | right; split; assumption].
  - assert (T : dmul PosInf (Fin wait) = PosInf).
    { cbn. unfold times_infinity. apply Qgt_alt in Hw. rewrite Hw. reflexivity. }
    rewrite T. intros D.
    assert (R : round64 (wait * 10) = Fin m).
    { destruct (round64 (wait * 10)); cbn in D; try discriminate; exact D. }
    assert (M0 : (0 <= m)%Q).
    { destruct (round64_cases _ H2) as [I | (q & F & Q0)]; rewrite R in *;
        [discriminate | injection F as <-; exact Q0]. }
    split; [exact M0 | right].
    assert (L : (wait * 10 <= exp2 count * wait)%Q).
    { rewrite (Qmult_comm wait 10). apply Qmult_le_compat_r; [| lra].
      apply Qle_trans with (exp2 1024); [discriminate | apply exp2_le; exact C]. }
    split; exists (wait * 10)%Q, m; repeat split; try assumption; lra.
Qed.

Lemma product_cases (a : double) (wait : Q) :
  (0 < wait)%Q ->
  a = PosInf \/ (exists p, a = Fin p /\ (0 <= p)%Q) ->
  dmul a (Fin wait) = PosInf \/ exists q, dmul a (Fin wait) = Fin q.
Proof.
  intros Hw [-> | (p & -> & Hp)].
  - left. cbn. unfold times_infinity. apply Qgt_alt in Hw. rewrite Hw. reflexivity.
  - change (dmul (Fin p) (Fin wait)) with (round64 (p * wait)).
    destruct (Qlt_le_dec 0 p) as [P | P].
    + destruct (round64_cases (p * wait)) as [I | (q & F & _)].
      * apply Qmult_lt_0_compat; assumption.
      * left. exact I.
      * right. exists q. exact F.
    + right. exists 0%Q. apply round64_zero.
      assert (Z : (p == 0)%Q) by lra. rewrite Z. ring.
Qed.

Lemma maxDelay_cases (count : Z) (wait : Q) :
  (0 < wait)%Q ->
  maxDelay count wait = PosInf \/ exists m, maxDelay count wait = Fin m.
Proof.
  intros Hw. unfold maxDelay.
  assert (P : pow2 count = PosInf \/ exists p, pow2 count = Fin p /\ (0 <= p)%Q).
  { destruct (round64_cases _ (exp2_pos count)) as [I | F]; [left | right];
      assumption. }
  destruct (product_cases _ wait Hw P) as [-> | (q1 & ->)];
    (destruct (product_cases (Fin wait) 10) as [I | (q2 & F)];
     [reflexivity | right; exists wait; split; [reflexivity | lra] | |]);
    change (dmul (Fin wait) (Fin 10)) with (round64 (wait * 10)) in *;
    rewrite ?I, ?F; cbn.
  - left; reflexivity.
  - right. exists q2. reflexivity.
  - right. exists q1. reflexivity.
  - right. destruct (Qle_bool q1 q2); eexists; reflexivity.
Qed.

End WindowBound.

(** The delay of lines 158-161. *)
Section Backoff.

Lemma maxDelay_no_overflow (count : Z) (wait : Q) :
  (0 < wait)%Q -> (wait <= exp2 1020)%Q -> maxDelay count wait <> PosInf.
Proof.
  intros Hw Le. unfold maxDelay.
  change (dmul (Fin wait) (Fin 10)) with (round64 (wait * 10)).
  assert (H2 : (0 < wait * 10)%Q) by lra.
  assert (N : (nearest (wait * 10) <= nearest (exp2 1020 * 10))%Q)
    by (apply nearest_mono; lra).
  assert (T : (nearest (exp2 1020 * 10) < exp2 1024)%Q)
    by (vm_compute; reflexivity).
  assert (F : Qle_bool (exp2 1024) (nearest (wait * 10)) = false).
  { destruct (Qle_bool (exp2 1024) (nearest (wait * 10))) eqn:G; [| reflexivity].
    apply Qle_bool_iff in G. lra. }
  rewrite (round64_pos _ H2), F.
  destruct (dmul (pow2 count) (Fin wait)) as [p | | |]; cbn [dmin].
  - destruct (Qle_bool p (Qred (nearest (wait * 10)))); discriminate.
  - discriminate.
  - discriminate.
  - discriminate.
Qed.

Lemma delay_bound (random : Q) (count : Z) (wait : Q) :
  is_double random -> (0 <= random)%Q -> (random < 1)%Q -> (0 < wait)%Q ->
  maxDelay count wait <> PosInf ->
  exists d : Z,
    nextDelay random count wait = Int d /\ 0 <= d /\
    (inject_Z d <= Qmin (2 ^ count * wait) (10 * wait))%Q.
Proof.
  intros D R0 R1 Hw F.
  pose proof (double_below_one random D R0 R1) as R.
  unfold nextDelay.
  destruct (maxDelay count wait) as [m | | |] eqn:W.
  - destruct (maxDelay_finite count wait m Hw W) as (M0 & [Z | [A1 A2]]).
    + change (dmul (Fin random) (Fin m)) with (round64 (random * m)).
      rewrite (round64_zero (random * m)) by (rewrite Z; ring).
      exists 0. split; [reflexivity | split; [lia |]].
      change (inject_Z 0) with 0%Q. apply Q.min_glb.
      * apply Qmult_le_0_compat; [apply Qlt_le_weak, exp2_pos | lra].
      * lra.
    + change (dmul (Fin random) (Fin m)) with (round64 (random * m)).
      destruct A1 as (b1 & q1 & P1 & L1 & E1 & Q1).
      destruct A2 as (b2 & q2 & P2 & L2 & E2 & Q2).
      destruct (floor_scaled b1 q1 random m P1 E1 M0 Q1 R0 R) as (d & Ed & D0 & D1).
      destruct (floor_scaled b2 q2 random m P2 E2 M0 Q2 R0 R) as (d' & Ed' & _ & D2).
      rewrite Ed in Ed'. injection Ed' as <-.
      exists d. split; [exact Ed | split; [exact D0 |]].
      apply Q.min_glb.
      * change (2 ^ count)%Q with (exp2 count). lra.
      * lra.
  - contradiction.
  - destruct (maxDelay_cases count wait Hw) as [I | (m & I)]; congruence.
  - destruct (maxDelay_cases count wait Hw) as [I | (m & I)]; congruence.
Qed.

Lemma delay_overflow (random : Q) (count : Z) (wait : Q) :
  (0 <= random)%Q -> maxDelay count wait = PosInf ->
  nextDelay random count wait = if Qeq_bool random 0 then NaN else Infinity.
Proof.
  intros H M. unfold nextDelay. rewrite M. cbn [dmul]. unfold times_infinity.
  destruct (Qcompare_spec random 0) as [E | L | G].
  - apply Qeq_bool_iff in E. rewrite E. reflexivity.
  - lra.
  - destruct (Qeq_bool random 0) eqn:E; [| reflexivity].
    apply Qeq_bool_iff in E. lra.
Qed.

Lemma retry_delay (c : ctx) (err : option Exception) (stat : option Stat)
    (random : Q) (delay : number) :
  In (SetTimeout RetryTimer delay) (snd (exec (exists_checked err stat random) c)) ->
  delay = nextDelay random (collisions c) (initialRetryWaitMs c).
Proof.
  unfold collisions. destruct c as [rn rid t mx w cb0 sq acq lst cc].
  destruct err, stat; js; repeat (branch; js); simpl;
    intros F; repeat (destruct F as [F|F]; [try discriminate F|]);
    try contradiction; injection F as <-; reflexivity.
Qed.

End Backoff.

(** The claim of C7 fails when the window overflows.  With the double
    2^1023 as initial wait and four collisions both products are Infinity,
    so is their minimum, and the delay is Infinity for the random number
    1/2 and NaN for the random number 0: no integer between 0 and
    min(2^4 * wait, 10 * wait). *)
Lemma backoff_overflows :
  is_double (1 # 2) /\ is_double (exp2 1023) /\ (0 < exp2 1023)%Q /\
  maxDelay 4 (exp2 1023) = PosInf /\
  nextDelay (1 # 2) 4 (exp2 1023) = Infinity /\
  nextDelay 0 4 (exp2 1023) = NaN /\
  ~ (exists d : Z,
       nextDelay (1 # 2) 4 (exp2 1023) = Int d /\ 0 <= d /\
       (inject_Z d <= Qmin (2 ^ 4 * exp2 1023) (10 * exp2 1023))%Q).
Proof.
  assert (E : nextDelay (1 # 2) 4 (exp2 1023) = Infinity)
    by (vm_compute; reflexivity).
  split; [vm_compute; reflexivity |].
  split; [vm_compute; reflexivity |].
  split; [vm_compute; reflexivity |].
  split; [vm_compute; reflexivity |].
  split; [exact E |].
  split; [vm_compute; reflexivity |].
  rewrite E. intros (d & H & _). discriminate H.
Qed.

(** C7, amended.  With doubles, for a random number that is a double in
    [0, 1), a positive initial wait and any collision count: whenever the
    window [maxDelay] has not overflowed, the delay is an integer between 0
    and min(2^count * wait, 10 * wait), the bounds taken in exact
    arithmetic; when it has, the delay is Infinity, or NaN for the random
    number 0; the window does not overflow for an initial wait up to
    2^1020; and the delay is the one every retry timer of the existence
    check is set with. *)
Theorem backoff_bound (random : Q) (count : Z) (wait : Q) :
  is_double random -> (0 <= random)%Q -> (random < 1)%Q -> (0 < wait)%Q ->
  (maxDelay count wait <> PosInf ->
   exists d : Z,
     nextDelay random count wait = Int d /\ 0 <= d /\
     (inject_Z d <= Qmin (2 ^ count * wait) (10 * wait))%Q) /\
  (maxDelay count wait = PosInf ->
   nextDelay random count wait = if Qeq_bool random 0 then NaN else Infinity) /\
  ((wait <= 2 ^ 1020)%Q -> maxDelay count wait <> PosInf) /\
  (forall c err stat delay,
     collisions c = count -> initialRetryWaitMs c = wait ->
     In (SetTimeout RetryTimer delay)
        (snd (exec (exists_checked err stat random) c)) ->
     delay = nextDelay random count wait).
Proof.
  intros D R0 R1 Hw. split; [| split; [| split]].
  - intros F. apply delay_bound; assumption.
  - intros F. apply delay_overflow; assumption.
  - intros Le. apply maxDelay_no_overflow; assumption.
  - intros c err stat delay <- <-. apply retry_delay.
Qed.

(** The double 0.7 as random number, no collision yet, an initial wait of
    10: the delay is an integer between 0 and 10. *)
Lemma backoff_bound_witness :
  exists d : Z,
    nextDelay (3152519739159347 # 4503599627370496) 0 10 = Int d /\ 0 <= d /\
    (inject_Z d <= Qmin (2 ^ 0 * 10) (10 * 10))%Q.
Proof.
  destruct (backoff_bound (3152519739159347 # 4503599627370496) 0 10)
    as (H & _).
  - vm_compute. reflexivity.
  - discriminate.
  - reflexivity.
  - reflexivity.
  - apply H. vm_compute. discriminate.
Defined.

(** ** Delivery of events *)

Section Delivery.

Lemma take_out_In (p : pending) (l : list pending) :
  In p l -> exists rest, take_out p l = Some rest.
Proof.
  induction l as [|q t IH]; simpl; [intros []|].
  intros H. destruct (pending_eq_dec p q) as [|Hne]; [eauto|].
  destruct H as [H|H]; [congruence|].
  destruct (IH H) as [rest ->]. eauto.
Qed.

Lemma take_out_sub (p : pending) (l rest : list pending) :
  take_out p l = Some rest -> In p l /\ forall q, In q rest -> In q l.
Proof.
  revert rest. induction l as [|x t IH]; simpl; [discriminate|].
  intros rest. destruct (pending_eq_dec p x) as [->|Hne].
  - intros [= <-]. split; [left; reflexivity | intros q Hq; right; exact Hq].
  - destruct (take_out p t) as [t'|]; [|discriminate].
    intros [= <-]. destruct (IH t' eq_refl) as [Hp Hsub]. split.
    + right. exact Hp.
    + intros q [Hq|Hq]; [left; exact Hq | right; apply Hsub; exact Hq].
Qed.

Lemma take_out_other (p q : pending) (l rest : list pending) :
  take_out p l = Some rest -> q <> p -> In q l -> In q rest.
Proof.
  revert rest. induction l as [|x t IH]; simpl; [discriminate|].
  intros rest. destruct (pending_eq_dec p x) as [->|Hne].
  - intros [= <-] Hq [H|H]; [congruence | exact H].
  - destruct (take_out p t) as [t'|]; [|discriminate].
    intros [= <-] Hq [H|H]; [left; exact H | right; apply (IH t' eq_refl Hq H)].
Qed.

Lemma deliver_awaited (ev : event) (p : pending) (w : world)
    (rest : list pending) (c' : ctx) (out : list effect) :
  answers ev = Some p -> take_out p (outstanding w) = Some rest ->
  exec (handler ev) (session w) = (c', out) ->
  deliver ev w = Some (mkWorld c' (rest ++ flat_map owed out) (output w ++ out)).
Proof. unfold deliver, fire. intros -> -> ->. reflexivity. Qed.

Lemma deliver_entry (ev : event) (w : world) (c' : ctx) (out : list effect) :
  answers ev = None ->
  exec (handler ev) (session w) = (c', out) ->
  deliver ev w =
    Some (mkWorld c' (outstanding w ++ flat_map owed out) (output w ++ out)).
Proof. unfold deliver, fire. intros -> ->. reflexivity. Qed.

Lemma deliver_unawaited (ev : event) (p : pending) (w : world) :
  answers ev = Some p -> ~ In p (outstanding w) -> deliver ev w = None.
Proof.
  unfold deliver. intros -> Hn.
  destruct (take_out p (outstanding w)) as [rest|] eqn:E; [|reflexivity].
  destruct (take_out_sub _ _ _ E) as [Hin _]. contradiction.
Qed.

End Delivery.

(** ** Release *)

Section Unlock.

Lemma unlock_held (c : ctx) (p : string) :
  acquiredResource c = Some p -> p <> "" ->
  exec unlock c =
    (with_cb (Some (cb_or_empty c)) c,
     [Log OnDebug [VString "removing"; VString p];
      ClientRemove p (-1) UnlockRemoved]).
Proof.
  intros Hacq Hp. pose proof (truthy_str_Some p Hp) as Ht.
  destruct c as [rn rid t mx w cb0 sq acq lst cc]. simpl in Hacq. subst acq.
  js. rewrite Ht. reflexivity.
Qed.

Lemma unlock_idle (c : ctx) :
  truthy_str (acquiredResource c) = false ->
  exec unlock c =
    (with_cb (Some (cb_or_empty c)) c, [SetImmediate (cb_or_empty c)]).
Proof.
  destruct c as [rn rid t mx w cb0 sq acq lst cc]. js.
  intros ->. reflexivity.
Qed.

Lemma unlock_removed_ok (c : ctx) (f : callback) :
  cb c = Some f ->
  exec (unlock_removed None) c =
    (with_acquiredResource None c,
     [Log OnDebug [VString "removed"; vopt (acquiredResource c)]; CallCb f []]).
Proof.
  destruct c as [rn rid t mx w cb0 sq acq lst cc]. simpl. intros ->. reflexivity.
Qed.

Lemma unlock_removed_error (c : ctx) (f : callback) (e : Exception) :
  cb c = Some f ->
  exec (unlock_removed (Some e)) c =
    (c, [Log OnDebug [VString "unlock failed"; vopt (acquiredResource c); VErr e];
         CallCb f [VString "unable to unlock resource"; vopt (acquiredResource c)]]).
Proof.
  destruct c as [rn rid t mx w cb0 sq acq lst cc]. simpl. intros ->. reflexivity.
Qed.

Lemma ttl_expired_released (c : ctx) :
  truthy_str (acquiredResource c) = false ->
  exec ttl_expired c =
    (with_cb (Some (cb_or_empty c)) c,
     [Log OnError [VString "lock held time exceeds TTL, force releasing lock";
                   vopt (acquiredResource c)];
      Emit "ttlExpired" (resourceId c);
      SetImmediate (cb_or_empty c)]).
Proof.
  destruct c as [rn rid t mx w cb0 sq acq lst cc]. js.
  intros ->. reflexivity.
Qed.

End Unlock.

(** C3.  On a session that holds nothing, [unlock] only schedules the
    callback, which is then called without an error; no call goes to the
    store.  On a session that holds the lock, once the removal has
    succeeded the held path is cleared, and a second [unlock] again only
    schedules the callback, called without an error. *)
Theorem unlock_idempotent (c : ctx) :
  let f := cb_or_empty c in
  let c1 := with_cb (Some f) c in
  (truthy_str (acquiredResource c) = false ->
     exec unlock c = (c1, [SetImmediate f]) /\
     filter is_store_call (snd (exec unlock c)) = [] /\
     exec (immediate f) c1 = (c1, [CallCb f []]) /\
     reports_error [] = false) /\
  (truthy_str (acquiredResource c) = true ->
     let c2 := with_acquiredResource None c1 in
     fst (exec unlock c) = c1 /\
     exec (unlock_removed None) c1 =
       (c2, [Log OnDebug [VString "removed"; vopt (acquiredResource c)];
             CallCb f []]) /\
     exec unlock c2 = (c2, [SetImmediate f]) /\
     filter is_store_call (snd (exec unlock c2)) = [] /\
     exec (immediate f) c2 = (c2, [CallCb f []]) /\
     reports_error [] = false).
Proof.
  intros f c1. subst f c1. split; intros H.
  - rewrite (unlock_idle c H). repeat split.
  - destruct (acquiredResource c) as [p|] eqn:Hacq; [|discriminate].
    assert (Hp : p <> "").
    { intros ->. discriminate. }
    cbv zeta. rewrite (unlock_held c p Hacq Hp).
    rewrite (unlock_removed_ok (with_cb (Some (cb_or_empty c)) c)
               (cb_or_empty c) eq_refl).
    rewrite (unlock_idle (with_acquiredResource None
                            (with_cb (Some (cb_or_empty c)) c)) eq_refl).
    repeat split.
    destruct c; simpl in *; subst; reflexivity.
Qed.

Lemma unlock_idempotent_witness :
  exec unlock demo = (demo, [SetImmediate (UserCb 0)]) /\
  exec unlock (with_acquiredResource None (with_cb (Some EmptyFn) demo_held)) =
    (with_acquiredResource None (with_cb (Some EmptyFn) demo_held),
     [SetImmediate EmptyFn]).
Proof.
  split.
  - apply (proj1 (unlock_idempotent demo)). reflexivity.
  - apply (proj2 (unlock_idempotent demo_held)). reflexivity.
Defined.

(** C8.  When the removal that [unlock] asked for fails, the callback is
    called with the error ['unable to unlock resource'] and the path that
    was to be released, and the session, [acquiredResource] included, is
    left as it was. *)
Theorem unlock_failure_keeps_held (c : ctx) (p : string) (e : Exception) :
  acquiredResource c = Some p -> p <> "" ->
  let f := cb_or_empty c in
  let c1 := with_cb (Some f) c in
  exec unlock c =
    (c1, [Log OnDebug [VString "removing"; VString p];
          ClientRemove p (-1) UnlockRemoved]) /\
  exec (unlock_removed (Some e)) c1 =
    (c1, [Log OnDebug [VString "unlock failed"; VString p; VErr e];
          CallCb f [VString "unable to unlock resource"; VString p]]) /\
  reports_error [VString "unable to unlock resource"; VString p] = true /\
  acquiredResource c1 = Some p.
Proof.
  intros Hacq Hp f c1. subst f c1.
  split; [exact (unlock_held c p Hacq Hp)|].
  rewrite (unlock_removed_error (with_cb (Some (cb_or_empty c)) c)
             (cb_or_empty c) e eq_refl).
  destruct c as [rn rid t mx w cb0 sq acq lst cc]. simpl in Hacq. subst acq.
  repeat split.
Qed.

Lemma unlock_failure_keeps_held_witness :
  exec (unlock_removed (Some (mkException (-4)))) (with_cb (Some EmptyFn) demo_held) =
    (with_cb (Some EmptyFn) demo_held,
     [Log OnDebug [VString "unlock failed"; VString "/locks/a/x0000000001";
                   VErr (mkException (-4))];
      CallCb EmptyFn [VString "unable to unlock resource";
                      VString "/locks/a/x0000000001"]]).
Proof.
  apply (unlock_failure_keeps_held demo_held "/locks/a/x0000000001").
  - reflexivity.
  - discriminate.
Defined.

(** C9, as stated, fails: the held session unlocks, the store answers
    NO_NODE, and the callback is called with the error
    ['unable to unlock resource'] while [acquiredResource] stays set. *)
Lemma unlock_not_found_is_an_error :
  option_map (fun w => (acquiredResource (session w), filter is_callback (output w)))
    (run [CallUnlock; Removed UnlockRemoved (Some (mkException NO_NODE))]
         (init demo_held))
  = Some (Some "/locks/a/x0000000001",
          [CallCb EmptyFn [VString "unable to unlock resource";
                           VString "/locks/a/x0000000001"]]) /\
  reports_error [VString "unable to unlock resource";
                 VString "/locks/a/x0000000001"] = true.
Proof. split; vm_compute; reflexivity. Qed.

(** C9, as the code has it.  A NO_NODE error from the removal is handled
    like every other error: the callback is called with
    ['unable to unlock resource'] and the path, and the session is left as
    it was, still holding [acquiredResource]. *)
Theorem unlock_not_found_like_any_error (c : ctx) (p : string) (f : callback)
    (e other : Exception) :
  acquiredResource c = Some p -> cb c = Some f -> code e = NO_NODE ->
  exec (unlock_removed (Some e)) c =
    (c, [Log OnDebug [VString "unlock failed"; VString p; VErr e];
         CallCb f [VString "unable to unlock resource"; VString p]]) /\
  reports_error [VString "unable to unlock resource"; VString p] = true /\
  filter is_callback (snd (exec (unlock_removed (Some e)) c)) =
    filter is_callback (snd (exec (unlock_removed (Some other)) c)) /\
  fst (exec (unlock_removed (Some e)) c) = fst (exec (unlock_removed (Some other)) c).
Proof.
  intros Hacq Hcb _.
  rewrite !(unlock_removed_error c f _ Hcb). rewrite Hacq.
  repeat split.
Qed.

Lemma unlock_not_found_like_any_error_witness :
  exec (unlock_removed (Some (mkException NO_NODE))) (with_cb (Some EmptyFn) demo_held) =
    (with_cb (Some EmptyFn) demo_held,
     [Log OnDebug [VString "unlock failed"; VString "/locks/a/x0000000001";
                   VErr (mkException NO_NODE)];
      CallCb EmptyFn [VString "unable to unlock resource";
                      VString "/locks/a/x0000000001"]]).
Proof.
  apply (unlock_not_found_like_any_error (with_cb (Some EmptyFn) demo_held)
           "/locks/a/x0000000001" EmptyFn (mkException NO_NODE) (mkException (-4))).
  - reflexivity.
  - reflexivity.
  - reflexivity.
Defined.

(** ** TTL *)

(** C5, as stated, fails: a lock is acquired with a TTL, released cleanly,
    and the timer still fires afterwards: ['ttlExpired'] is emitted for the
    resource and the callback of the release is called once more. *)
Lemma forced_release_after_clean_unlock :
  option_map output
    (run [CallLock; Created None "/locks/a/x0000000001";
          Listed None ["x0000000001"];
          CallUnlock; Removed UnlockRemoved None;
          Fired TtlTimer; Immediate EmptyFn] (init demo_ttl))
  = Some [ClientCreate "/locks/a/x";
          Log OnDebug [VString "znode created"; VString "/locks/a/x0000000001"];
          ClientGetChildren "/locks/a";
          Log OnDebug [VString "Children of %s are: %j.";
                       VString "/locks/a"; VList ["x0000000001"]];
          SetTimeout TtlTimer 1000;
          Log OnDebug [VString "lock acquired"; VString "/locks/a/x0000000001"];
          CallCb (UserCb 0) [VNull; VCtx];
          Log OnDebug [VString "removing"; VString "/locks/a/x0000000001"];
          ClientRemove "/locks/a/x0000000001" (-1) UnlockRemoved;
          Log OnDebug [VString "removed"; VString "/locks/a/x0000000001"];
          CallCb EmptyFn [];
          Log OnError [VString "lock held time exceeds TTL, force releasing lock";
                       VUndefined];
          Emit "ttlExpired" "x";
          SetImmediate EmptyFn;
          CallCb EmptyFn []].
Proof. vm_compute. reflexivity. Qed.

(** C5, as the code has it.  On a held session with the TTL timer pending,
    a release whose removal succeeds leaves the timer pending; when it
    fires, ['ttlExpired'] is emitted with the resource id and [unlock] runs
    again, which, the held path being cleared, sends nothing to the store
    and only schedules the callback. *)
Theorem ttl_timer_survives_unlock (w : world) (p : string) :
  acquiredResource (session w) = Some p -> p <> "" ->
  In (PTimer TtlTimer) (outstanding w) ->
  exists w1 w2 w3,
    deliver CallUnlock w = Some w1 /\
    deliver (Removed UnlockRemoved None) w1 = Some w2 /\
    acquiredResource (session w2) = None /\
    In (PTimer TtlTimer) (outstanding w2) /\
    deliver (Fired TtlTimer) w2 = Some w3 /\
    output w3 =
      (output w2 ++
       [Log OnError [VString "lock held time exceeds TTL, force releasing lock";
                     VUndefined];
        Emit "ttlExpired" (resourceId (session w));
        SetImmediate (cb_or_empty (session w))])%list /\
    acquiredResource (session w3) = None.
Proof.
  intros Hacq Hp Httl.
  destruct w as [c pend out]. simpl in Hacq, Httl |- *.
  set (f := cb_or_empty c).
  set (c1 := with_cb (Some f) c).
  set (c2 := with_acquiredResource None c1).
  destruct (take_out_In (PRemoved UnlockRemoved)
              (pend ++ [PRemoved UnlockRemoved])) as [rest1 Hrest1];
    [apply in_or_app; right; left; reflexivity|].
  assert (Hin1 : In (PTimer TtlTimer) (rest1 ++ [])).
  { apply in_or_app. left.
    apply (take_out_other _ _ _ _ Hrest1); [discriminate|].
    apply in_or_app. left. exact Httl. }
  destruct (take_out_In _ _ Hin1) as [rest2 Hrest2].
  eexists. eexists. eexists. split; [|split; [|split; [|split; [|split; [|split]]]]].
  - apply deliver_entry; [reflexivity|]. apply (unlock_held c p Hacq Hp).
  - eapply deliver_awaited; [reflexivity | exact Hrest1 |].
    apply (unlock_removed_ok c1 f). reflexivity.
  - reflexivity.
  - exact Hin1.
  - eapply deliver_awaited; [reflexivity | exact Hrest2 |].
    apply (ttl_expired_released c2). reflexivity.
  - destruct c; reflexivity.
  - reflexivity.
Qed.

Lemma ttl_timer_survives_unlock_witness :
  exists w1 w2 w3,
    deliver CallUnlock (mkWorld demo_held [PTimer TtlTimer] []) = Some w1 /\
    deliver (Removed UnlockRemoved None) w1 = Some w2 /\
    acquiredResource (session w2) = None /\
    In (PTimer TtlTimer) (outstanding w2) /\
    deliver (Fired TtlTimer) w2 = Some w3 /\
    output w3 =
      (output w2 ++
       [Log OnError [VString "lock held time exceeds TTL, force releasing lock";
                     VUndefined];
        Emit "ttlExpired" "x";
        SetImmediate EmptyFn])%list /\
    acquiredResource (session w3) = None.
Proof.
  apply (ttl_timer_survives_unlock (mkWorld demo_held [PTimer TtlTimer] [])
           "/locks/a/x0000000001").
  - reflexivity.
  - discriminate.
  - simpl. left. reflexivity.
Defined.

(** ** Polling with a retry limit *)

Section Polling.

Variable s : string.
Variable limit : Z.
Hypothesis s_named : s <> "".
Hypothesis limit_set : limit <> 0.

Lemma listed_behind (c : ctx) (children : list string) :
  seqZnode c = Some s -> maxRetryCount c = Some limit ->
  ~ smallest s children ->
  let sorted := sort children in
  let before :=
    at_index sorted (findIndex (fun e => strict_eq (Some e) (Some s)) sorted - 1) in
  exec (getChildren_listed None children) c =
    (with_lastChildId before c,
     [Log OnDebug [VString "Children of %s are: %j."; VString (resourceName c);
                   VList sorted];
      ClientExists (resourceName c ++ "/" ++ tmpl before) false]).
Proof.
  intros Hseq Hmax Hs sorted before. subst sorted before.
  destruct c as [rn rid t mx w cb0 sq acq lst cc]. simpl in Hseq, Hmax. subst sq mx.
  assert (E : strict_eq (Some s) (at_index (sort children) 0) = false).
  { destruct (strict_eq (Some s) (at_index (sort children) 0)) eqn:E; [|reflexivity].
    apply head_is_smallest in E. contradiction. }
  assert (T : truthy_num (Some limit) = true).
  { simpl. apply Z.eqb_neq in limit_set. rewrite limit_set. reflexivity. }
  js. rewrite E. js. rewrite T. reflexivity.
Qed.

Lemma checked_retries (c : ctx) (stat : Stat) (random : Q) :
  maxRetryCount c = Some limit -> collisions c <= limit ->
  let delay := nextDelay random (collisions c) (initialRetryWaitMs c) in
  exec (exists_checked None (Some stat) random) c =
    (with_collisionCount (Some (collisions c)) c,
     [Log OnDebug [VString ("Lock is still not available, retrying #"
                            ++ tmpl_num (collisions c) ++ " in " ++ tmpl_number delay)];
      SetTimeout RetryTimer delay]).
Proof.
  intros Hmax Hle delay. subst delay. unfold collisions in *.
  destruct c as [rn rid t mx w cb0 sq acq lst cc]. simpl in Hmax, Hle |- *. subst mx.
  assert (T : truthy_num (Some limit) = true).
  { simpl. apply Z.eqb_neq in limit_set. rewrite limit_set. reflexivity. }
  js. rewrite T.
  destruct (Z.gtb_spec (match cc with Some n => if n =? 0 then 0 else n | None => 0 end)
              limit) as [F|_]; [lia|].
  reflexivity.
Qed.

Lemma checked_gives_up (c : ctx) (stat : Stat) (random : Q) :
  seqZnode c = Some s -> maxRetryCount c = Some limit -> limit < collisions c ->
  let path := resourceName c ++ "/" ++ s in
  exec (exists_checked None (Some stat) random) c =
    (with_collisionCount (Some (collisions c)) c,
     [Log OnDebug [VString "Lock failed, retry count limit reached - ";
                   VNum (collisions c)];
      Log OnError [VString "unable to acquire lock";
                   VString ("Lock failed, retry count limit reached - "
                            ++ tmpl_num (collisions c))];
      Log OnDebug [VString "lock failed, cleaning up existing sequential znode";
                   VString path];
      ClientRemove path (-1) LockFailedRemoved]).
Proof.
  intros Hseq Hmax Hlt path. subst path. unfold collisions in *.
  pose proof (truthy_str_Some s s_named) as Ts.
  destruct c as [rn rid t mx w cb0 sq acq lst cc]. simpl in Hseq, Hmax, Hlt |- *.
  subst mx sq.
  assert (T : truthy_num (Some limit) = true).
  { simpl. apply Z.eqb_neq in limit_set. rewrite limit_set. reflexivity. }
  js. rewrite T.
  destruct (Z.gtb_spec (match cc with Some n => if n =? 0 then 0 else n | None => 0 end)
              limit) as [_|F]; [|lia].
  js. rewrite Ts. reflexivity.
Qed.

Lemma collisions_with (n : Z) (c : ctx) :
  collisions (with_collisionCount (Some n) c) = n.
Proof.
  unfold collisions. simpl. destruct (Z.eqb_spec n 0); congruence.
Qed.

Lemma retries_app (a b : list effect) : retries (a ++ b) = (retries a + retries b)%nat.
Proof. unfold retries. rewrite filter_app, length_app. reflexivity. Qed.

Lemma failures_app (a b : list effect) :
  failures (a ++ b) = (failures a + failures b)%nat.
Proof. unfold failures. rewrite filter_app, length_app. reflexivity. Qed.

Lemma deliver_listed (count : Z) (w : world) (children : list string) :
  polling s limit count w -> ~ smallest s children ->
  exists c1 out1,
    deliver (Listed None children) w =
      Some (mkWorld c1 [PChecked] (output w ++ out1)) /\
    seqZnode c1 = Some s /\ maxRetryCount c1 = Some limit /\
    collisions c1 = count /\ retries out1 = 0%nat /\ failures out1 = 0%nat.
Proof.
  intros (Hpend & Hseq & Hmax & Hcount) Hr.
  pose proof (listed_behind (session w) children Hseq Hmax Hr) as H1.
  simpl in H1.
  eexists. eexists. split.
  - rewrite (deliver_awaited (Listed None children) PListed w [] _ _ eq_refl
               ltac:(rewrite Hpend; reflexivity) H1).
    reflexivity.
  - destruct w as [[] ? ?]; simpl in *. repeat split; assumption.
Qed.

Lemma deliver_checked_retry (w : world) (stat : Stat) (random : Q) :
  outstanding w = [PChecked] -> maxRetryCount (session w) = Some limit ->
  collisions (session w) <= limit ->
  exists delay,
    deliver (Checked None (Some stat) random) w =
      Some (mkWorld (with_collisionCount (Some (collisions (session w))) (session w))
              [PTimer RetryTimer]
              (output w ++
               [Log OnDebug [VString ("Lock is still not available, retrying #"
                                      ++ tmpl_num (collisions (session w))
                                      ++ " in " ++ tmpl_number delay)];
                SetTimeout RetryTimer delay])).
Proof.
  intros Hpend Hmax Hle.
  pose proof (checked_retries (session w) stat random Hmax Hle) as H2. simpl in H2.
  eexists.
  rewrite (deliver_awaited (Checked None (Some stat) random) PChecked w [] _ _ eq_refl
             ltac:(rewrite Hpend; reflexivity) H2).
  reflexivity.
Qed.

Lemma deliver_checked_gives_up (w : world) (stat : Stat) (random : Q) :
  outstanding w = [PChecked] -> seqZnode (session w) = Some s ->
  maxRetryCount (session w) = Some limit -> limit < collisions (session w) ->
  let path := resourceName (session w) ++ "/" ++ s in
  deliver (Checked None (Some stat) random) w =
    Some (mkWorld (with_collisionCount (Some (collisions (session w))) (session w))
            [PRemoved LockFailedRemoved]
            (output w ++
             [Log OnDebug [VString "Lock failed, retry count limit reached - ";
                           VNum (collisions (session w))];
              Log OnError [VString "unable to acquire lock";
                           VString ("Lock failed, retry count limit reached - "
                                    ++ tmpl_num (collisions (session w)))];
              Log OnDebug [VString "lock failed, cleaning up existing sequential znode";
                           VString path];
              ClientRemove path (-1) LockFailedRemoved])).
Proof.
  intros Hpend Hseq Hmax Hlt path. subst path.
  pose proof (checked_gives_up (session w) stat random Hseq Hmax Hlt) as H2.
  simpl in H2.
  rewrite (deliver_awaited (Checked None (Some stat) random) PChecked w [] _ _ eq_refl
             ltac:(rewrite Hpend; reflexivity) H2).
  reflexivity.
Qed.

Lemma deliver_retry_fired (w : world) (n : Z) :
  outstanding w = [PTimer RetryTimer] -> collisionCount (session w) = Some n ->
  deliver (Fired RetryTimer) w =
    Some (mkWorld (with_collisionCount (Some (n + 1)) (session w)) [PListed]
            (output w ++ [ClientGetChildren (resourceName (session w))])).
Proof.
  intros Hpend Hcc.
  assert (H3 : exec (handler (Fired RetryTimer)) (session w) =
               (with_collisionCount (Some (n + 1)) (session w),
                [ClientGetChildren (resourceName (session w))])).
  { destruct (session w). simpl in Hcc. subst. reflexivity. }
  rewrite (deliver_awaited (Fired RetryTimer) (PTimer RetryTimer) w [] _ _ eq_refl
             ltac:(rewrite Hpend; reflexivity) H3).
  reflexivity.
Qed.

(** One poll that ends in a retry: the count goes up by one. *)
Lemma retry_run (count : Z) (w : world) (r : round) :
  polling s limit count w -> behind s r -> count <= limit ->
  exists w',
    run (retry r) w = Some w' /\ polling s limit (count + 1) w' /\
    retries (output w') = S (retries (output w)) /\
    failures (output w') = failures (output w).
Proof.
  intros Hw Hr Hle. destruct r as [[children stat] random].
  destruct (deliver_listed count w children Hw Hr)
    as (c1 & out1 & Hd1 & Hseq1 & Hmax1 & Hc1 & Hr1 & Hf1).
  set (w1 := mkWorld c1 [PChecked] (output w ++ out1)) in *.
  assert (Hle1 : collisions (session w1) <= limit) by (simpl; lia).
  destruct (deliver_checked_retry w1 stat random eq_refl Hmax1 Hle1) as [delay Hd2].
  simpl session in Hd2. simpl output in Hd2.
  match type of Hd2 with _ = Some ?x => set (w2 := x) in * end.
  pose proof (deliver_retry_fired w2 (collisions c1) eq_refl eq_refl) as Hd3.
  eexists. split; [|split; [|split]].
  - unfold retry, recheck. simpl app. simpl run.
    rewrite Hd1, Hd2, Hd3. reflexivity.
  - repeat split; simpl.
    + destruct c1; exact Hseq1.
    + destruct c1; exact Hmax1.
    + rewrite collisions_with. lia.
  - simpl. rewrite !retries_app, Hr1. unfold retries. simpl. lia.
  - simpl. rewrite !failures_app, Hf1. unfold failures. simpl. lia.
Qed.

Lemma retries_run (rounds : list round) (count : Z) (w : world) :
  polling s limit count w -> Forall (behind s) rounds ->
  count + Z.of_nat (length rounds) <= limit + 1 ->
  exists w',
    run (flat_map retry rounds) w = Some w' /\
    polling s limit (count + Z.of_nat (length rounds)) w' /\
    retries (output w') = (retries (output w) + length rounds)%nat /\
    failures (output w') = failures (output w).
Proof.
  revert count w. induction rounds as [|r rounds IH]; intros count w Hw Hall Hle.
  - exists w. simpl. rewrite Z.add_0_r, Nat.add_0_r. auto.
  - inversion Hall as [|? ? Hr Hrest]; subst.
    simpl length in Hle. rewrite Nat2Z.inj_succ in Hle.
    destruct (retry_run count w r Hw Hr ltac:(lia)) as (w1 & Hrun1 & Hw1 & Hr1 & Hf1).
    destruct (IH (count + 1) w1 Hw1 Hrest ltac:(lia)) as (w2 & Hrun2 & Hw2 & Hr2 & Hf2).
    exists w2. split; [|split; [|split]].
    + simpl flat_map. unfold retry at 1.
      destruct r as [[children stat] random]. simpl app.
      unfold retry, recheck in Hrun1. simpl app in Hrun1. simpl run in Hrun1 |- *.
      destruct (deliver (Listed None children) w) as [a|]; [|discriminate].
      destruct (deliver (Checked None (Some stat) random) a) as [b|]; [|discriminate].
      destruct (deliver (Fired RetryTimer) b) as [d|]; [|discriminate].
      injection Hrun1 as ->. exact Hrun2.
    + simpl length. rewrite Nat2Z.inj_succ.
      replace (count + Z.succ (Z.of_nat (length rounds)))
        with (count + 1 + Z.of_nat (length rounds)) by lia.
      exact Hw2.
    + rewrite Hr2, Hr1. simpl length. lia.
    + rewrite Hf2, Hf1. reflexivity.
Qed.

(** C6.  In polling mode (a retry limit other than zero), from a fresh
    attempt whose node [s] is never the smallest and whose predecessor is
    always found: every retry adds exactly one to the collision count, so
    after [k] retries the count is [k]; as long as [k <= limit] the next
    check schedules one more retry and does not fail; after [limit + 1]
    retries the next check sets no timer and enters [lockFailed] with the
    retry-limit reason.  A limit of N thus allows exactly N + 1 re-checks. *)
Theorem retry_limit (w : world) (rounds : list round) (last : round) :
  polling s limit 0 w -> Forall (behind s) rounds -> behind s last ->
  Z.of_nat (length rounds) <= limit + 1 ->
  exists w1 w2,
    run (flat_map retry rounds) w = Some w1 /\
    collisions (session w1) = Z.of_nat (length rounds) /\
    retries (output w1) = (retries (output w) + length rounds)%nat /\
    failures (output w1) = failures (output w) /\
    run (recheck last) w1 = Some w2 /\
    (Z.of_nat (length rounds) <= limit ->
       outstanding w2 = [PTimer RetryTimer] /\
       retries (output w2) = S (retries (output w1)) /\
       failures (output w2) = failures (output w1)) /\
    (Z.of_nat (length rounds) = limit + 1 ->
       outstanding w2 = [PRemoved LockFailedRemoved] /\
       retries (output w2) = retries (output w1) /\
       failures (output w2) = S (failures (output w1)) /\
       In (Log OnError [VString "unable to acquire lock";
                        VString ("Lock failed, retry count limit reached - "
                                 ++ tmpl_num (limit + 1))])
          (output w2)).
Proof.
  intros Hw Hall Hlast Hle.
  destruct (retries_run rounds 0 w Hw Hall ltac:(lia)) as (w1 & Hrun & Hw1 & Hr1 & Hf1).
  rewrite Z.add_0_l in Hw1.
  destruct last as [[children stat] random].
  destruct (deliver_listed _ w1 children Hw1 Hlast)
    as (c1 & out1 & Hd1 & Hseq1 & Hmax1 & Hc1 & Hro & Hfo).
  set (v := mkWorld c1 [PChecked] (output w1 ++ out1)) in *.
  destruct (Z_le_gt_dec (Z.of_nat (length rounds)) limit) as [Hk|Hk].
  - assert (Hle1 : collisions (session v) <= limit) by (simpl; lia).
    destruct (deliver_checked_retry v stat random eq_refl Hmax1 Hle1) as [delay Hd2].
    eexists. eexists. split; [exact Hrun|].
    split; [exact (proj2 (proj2 (proj2 Hw1)))|].
    split; [exact Hr1|]. split; [exact Hf1|].
    split; [unfold recheck; simpl run; rewrite Hd1, Hd2; reflexivity|].
    split; [|intros F; lia].
    intros _. simpl. rewrite !retries_app, !failures_app, Hro, Hfo.
    unfold retries, failures. simpl. repeat split; lia.
  - assert (Hgt1 : limit < collisions (session v)) by (simpl; lia).
    pose proof (deliver_checked_gives_up v stat random eq_refl Hseq1 Hmax1 Hgt1) as Hd2.
    cbv zeta in Hd2.
    eexists. eexists. split; [exact Hrun|].
    split; [exact (proj2 (proj2 (proj2 Hw1)))|].
    split; [exact Hr1|]. split; [exact Hf1|].
    split; [unfold recheck; simpl run; rewrite Hd1, Hd2; reflexivity|].
    split; [intros F; lia|].
    intros Heq. simpl. rewrite !retries_app, !failures_app, Hro, Hfo.
    unfold retries, failures. simpl. repeat split; try lia.
    apply in_or_app. right. right. left.
    rewrite Hc1. rewrite Heq. reflexivity.
Qed.

End Polling.

Lemma retry_limit_witness :
  exists w1 w2,
    run (flat_map retry [demo_round; demo_round]) demo_polling = Some w1 /\
    collisions (session w1) = 2 /\
    retries (output w1) = 2%nat /\
    failures (output w1) = 0%nat /\
    run (recheck demo_round) w1 = Some w2 /\
    outstanding w2 = [PRemoved LockFailedRemoved] /\
    retries (output w2) = 2%nat /\
    failures (output w2) = 1%nat.
Proof.
  assert (Hbehind : behind "x0000000002" demo_round).
  { intros [_ F].
    specialize (F "x0000000001" (or_intror (or_introl eq_refl))).
    discriminate. }
  destruct (retry_limit "x0000000002" 1 ltac:(discriminate) ltac:(discriminate)
              demo_polling [demo_round; demo_round] demo_round)
    as (w1 & w2 & Hrun & Hcount & Hretries & Hfailures & Hlast & _ & Hfail).
  - repeat split; reflexivity.
  - repeat constructor; exact Hbehind.
  - exact Hbehind.
  - simpl. lia.
  - destruct (Hfail eq_refl) as (Hpend & Hr & Hf & _).
    exists w1, w2. rewrite Hr, Hf, Hretries, Hfailures.
    repeat split; assumption.
Defined.

(** ** A retry limit of zero *)

Section ZeroLimit.

Lemma handler_without_limit (ev : event) (c : ctx) :
  truthy_num (maxRetryCount c) = false ->
  exec (handler ev) (with_maxRetryCount None c) =
    (with_maxRetryCount None (fst (exec (handler ev) c)),
     snd (exec (handler ev) c)) /\
  maxRetryCount (fst (exec (handler ev) c)) = maxRetryCount c /\
  (collisionCount (fst (exec (handler ev) c)) = collisionCount c \/
   ev = Fired RetryTimer) /\
  Forall (fun e => is_retry e = false /\
                   forall p watch, e = ClientExists p watch -> watch = true)
         (snd (exec (handler ev) c)).
Proof.
  intros H. destruct c as [rn rid t mx w cb0 sq acq lst cc].
  change (truthy_num mx = false) in H.
  destruct ev as [| |err path|err children|err stat random| |k err|tm|f];
    try destruct k; try destruct tm; try destruct err; try destruct stat;
    repeat progress (js; rewrite ?H; try change (truthy_num None) with false);
    repeat (branch;
            repeat progress (js; rewrite ?H;
                             try change (truthy_num None) with false)).
  all: repeat split; auto.
  all: repeat constructor; try discriminate.
  all: try (intros ? ? [= _ <-]; reflexivity).
Qed.

Lemma deliver_without_limit (ev : event) (w : world) :
  truthy_num (maxRetryCount (session w)) = false ->
  deliver ev (erase_limit w) = option_map erase_limit (deliver ev w).
Proof.
  intros H. destruct (handler_without_limit ev (session w) H) as (Hexec & _).
  unfold deliver, fire. simpl session. simpl outstanding. rewrite Hexec.
  destruct (exec (handler ev) (session w)) as [c' out].
  destruct (answers ev) as [p|]; [|reflexivity].
  destruct (take_out p (outstanding w)); reflexivity.
Qed.

Lemma owed_retry (e : effect) :
  In (PTimer RetryTimer) (owed e) -> is_retry e = true.
Proof.
  destruct e as [ch args|path|path|path watch|path ver k|t delay|f|name arg|f args|];
    simpl; try tauto.
  - intros [F|[]]; discriminate.
  - intros [F|[]]; discriminate.
  - destruct watch; simpl; intuition discriminate.
  - intros [F|[]]; discriminate.
  - destruct t; [intros [F|[]]; discriminate | reflexivity].
  - intros [F|[]]; discriminate.
Qed.

Lemma watching_deliver (count : option Z) (ev : event) (w w' : world) :
  watching count w -> deliver ev w = Some w' -> watching count w'.
Proof.
  intros (Hlim & Hcc & Hpend & Hout) Hd.
  destruct (handler_without_limit ev (session w) Hlim) as (_ & Hmx & Hcount & Hnew).
  assert (Hev : ev <> Fired RetryTimer).
  { intros ->.
    rewrite (deliver_unawaited (Fired RetryTimer) (PTimer RetryTimer) w
               eq_refl Hpend) in Hd.
    discriminate. }
  destruct Hcount as [Hcount|]; [|contradiction].
  unfold deliver, fire in Hd.
  destruct (exec (handler ev) (session w)) as [c' out]. simpl in Hmx, Hcount, Hnew.
  assert (Hrest : forall rest, (forall q, In q rest -> In q (outstanding w)) ->
            watching count (mkWorld c' (rest ++ flat_map owed out) (output w ++ out))).
  { intros rest Hsub. repeat split; simpl.
    - rewrite Hmx. exact Hlim.
    - rewrite Hcount. exact Hcc.
    - intros F. apply in_app_or in F. destruct F as [F|F].
      + apply Hpend, Hsub, F.
      + apply in_flat_map in F. destruct F as (e & He & Hp).
        apply owed_retry in Hp. rewrite Forall_forall in Hnew.
        destruct (Hnew e He) as [Hr _]. congruence.
    - apply Forall_app. split; assumption. }
  destruct (answers ev) as [p|].
  - destruct (take_out p (outstanding w)) as [rest|] eqn:E; [|discriminate].
    injection Hd as <-. apply Hrest. apply (take_out_sub _ _ _ E).
  - injection Hd as <-. apply Hrest. auto.
Qed.

Lemma watching_run (count : option Z) (evs : list event) (w w' : world) :
  watching count w -> run evs w = Some w' -> watching count w'.
Proof.
  revert w. induction evs as [|ev evs IH]; simpl; intros w Hw.
  - intros [= <-]. exact Hw.
  - destruct (deliver ev w) as [w1|] eqn:E; [|discriminate].
    apply IH. exact (watching_deliver _ _ _ _ Hw E).
Qed.

Lemma run_without_limit (evs : list event) (w : world) :
  (exists count, watching count w) ->
  run evs (erase_limit w) = option_map erase_limit (run evs w).
Proof.
  revert w. induction evs as [|ev evs IH]; simpl; intros w [count Hw]; [reflexivity|].
  rewrite (deliver_without_limit ev w (proj1 Hw)).
  destruct (deliver ev w) as [w1|] eqn:E; simpl; [|reflexivity].
  apply IH. exists count. exact (watching_deliver _ _ _ _ Hw E).
Qed.

Lemma exists_checked_waits (c : ctx) (stat : Stat) (random : Q) :
  truthy_num (maxRetryCount c) = false ->
  exec (exists_checked None (Some stat) random) c = (c, []).
Proof.
  intros H. destruct c as [rn rid t mx w cb0 sq acq lst cc].
  change (truthy_num mx = false) in H. js. rewrite H. reflexivity.
Qed.

Lemma watching_listed (count : option Z) (w : world) (s : string)
    (children : list string) :
  watching count w -> seqZnode (session w) = Some s ->
  In PListed (outstanding w) -> ~ smallest s children ->
  exists w1,
    deliver (Listed None children) w = Some w1 /\
    watching count w1 /\
    session w1 = with_lastChildId (before s children) (session w) /\
    output w1 =
      (output w ++
       [Log OnDebug [VString "Children of %s are: %j.";
                     VString (resourceName (session w)); VList (sort children)];
        ClientExists (resourceName (session w) ++ "/" ++ tmpl (before s children))
                     true])%list /\
    In PChecked (outstanding w1) /\ In PWatch (outstanding w1).
Proof.
  intros Hw Hseq Hin Hs.
  destruct (take_out_In _ _ Hin) as [rest Hrest].
  pose proof (listed_waiting (session w) s children Hseq Hs) as Hexec.
  rewrite (proj1 Hw) in Hexec.
  pose proof (deliver_awaited (Listed None children) PListed w rest _ _
                eq_refl Hrest Hexec) as Hd.
  eexists. split; [exact Hd |]. split; [exact (watching_deliver _ _ _ _ Hw Hd) |].
  cbn [session output outstanding]. repeat split.
  - apply in_or_app. right. left. reflexivity.
  - apply in_or_app. right. right. left. reflexivity.
Qed.

Lemma watching_checked (count : option Z) (w : world) (stat : Stat) (random : Q) :
  watching count w -> In PChecked (outstanding w) -> In PWatch (outstanding w) ->
  exists w2,
    deliver (Checked None (Some stat) random) w = Some w2 /\
    session w2 = session w /\ output w2 = output w /\
    In PWatch (outstanding w2) /\ ~ In (PTimer RetryTimer) (outstanding w2).
Proof.
  intros Hw Hc Hp.
  destruct (take_out_In _ _ Hc) as [rest Hrest].
  pose proof (exists_checked_waits (session w) stat random (proj1 Hw)) as Hexec.
  pose proof (deliver_awaited (Checked None (Some stat) random) PChecked w rest
                _ _ eq_refl Hrest Hexec) as Hd.
  eexists. split; [exact Hd |].
  destruct (watching_deliver _ _ _ _ Hw Hd) as (_ & _ & Hpend & _).
  cbn [session output outstanding] in *. repeat split.
  - apply app_nil_r.
  - apply in_or_app. left.
    apply (take_out_other PChecked PWatch _ _ Hrest); [discriminate | exact Hp].
  - exact Hpend.
Qed.

End ZeroLimit.

(** C10.  A session whose [maxRetryCount] is falsy (0 as well as absent)
    runs, on every sequence of events, exactly as the same session with
    [maxRetryCount] absent; every existence check it makes carries a watch,
    it never sets a retry timer nor touches the collision count, and a
    predecessor that is still there leaves it waiting: nothing is emitted,
    nothing fails.  And the watch is registered: when such a session has
    listed the children and its node [s] is not the smallest, the listing
    is answered by one call of [client.exists] on
    [resourceName/lastChildId] with the watch function, where
    [lastChildId] is the child just before [s] (the greatest child below
    [s] when [s] is listed); the check and the watch are then owed, and
    the answer that the predecessor exists changes nothing and sets no
    timer: the session keeps waiting on the watch. *)
Theorem zero_limit_is_watch_mode (c : ctx) (evs : list event) :
  truthy_num (maxRetryCount c) = false ->
  run evs (init (with_maxRetryCount None c)) =
    option_map erase_limit (run evs (init c)) /\
  forall w, run evs (init c) = Some w ->
    (forall p watch, In (ClientExists p watch) (output w) -> watch = true) /\
    filter is_retry (output w) = [] /\
    ~ In (PTimer RetryTimer) (outstanding w) /\
    collisionCount (session w) = collisionCount c /\
    (forall stat random,
      exec (handler (Checked None (Some stat) random)) (session w) = (session w, [])) /\
    forall s children,
      seqZnode (session w) = Some s -> In PListed (outstanding w) ->
      ~ smallest s children ->
      exists w1,
        deliver (Listed None children) w = Some w1 /\
        lastChildId (session w1) = before s children /\
        output w1 =
          (output w ++
           [Log OnDebug [VString "Children of %s are: %j.";
                         VString (resourceName (session w));
                         VList (sort children)];
            ClientExists
              (resourceName (session w) ++ "/" ++ tmpl (before s children))
              true])%list /\
        In PChecked (outstanding w1) /\ In PWatch (outstanding w1) /\
        (In s children ->
         exists p,
           before s children = Some p /\ In p children /\
           String.ltb p s = true /\
           forall x, In x children -> String.ltb x s = true ->
                     String.leb x p = true) /\
        forall stat random,
        exists w2,
          deliver (Checked None (Some stat) random) w1 = Some w2 /\
          session w2 = session w1 /\ output w2 = output w1 /\
          In PWatch (outstanding w2) /\
          ~ In (PTimer RetryTimer) (outstanding w2).
Proof.
  intros H.
  assert (Hinit : watching (collisionCount c) (init c)).
  { repeat split; simpl; auto. }
  split.
  - apply (run_without_limit evs (init c)). exists (collisionCount c). exact Hinit.
  - intros w Hrun.
    pose proof (watching_run _ _ _ _ Hinit Hrun) as Hw.
    destruct Hw as (Hlim & Hcc & Hpend & Hout).
    assert (Hw : watching (collisionCount c) w) by (repeat split; assumption).
    rewrite Forall_forall in Hout.
    split; [| split; [| split; [| split; [| split]]]].
    + intros p watch Hin. destruct (Hout _ Hin) as [_ Hx]. exact (Hx p watch eq_refl).
    + induction (output w) as [|e t IH]; [reflexivity|]. simpl.
      destruct (Hout e (or_introl eq_refl)) as [-> _].
      apply IH. intros x Hx. apply Hout. right. exact Hx.
    + exact Hpend.
    + exact Hcc.
    + intros stat random. apply exists_checked_waits. exact Hlim.
    + intros s children Hseq Hin Hs.
      destruct (watching_listed _ w s children Hw Hseq Hin Hs)
        as (w1 & Hd & Hw1 & Hses & Hout1 & Hc1 & Hp1).
      exists w1. split; [exact Hd |]. split; [| split; [exact Hout1 |]].
      { rewrite Hses. destruct (session w). reflexivity. }
      split; [exact Hc1 |]. split; [exact Hp1 |]. split.
      * intros Hin'. apply before_listed; assumption.
      * intros stat random. apply (watching_checked _ w1 stat random Hw1 Hc1 Hp1).
Qed.

(** On the session with a limit of zero whose node x0000000002 has been
    created: the listing with x0000000001 before it is answered by an
    existence check of /locks/a/x0000000001 with a watch, and the watch is
    owed. *)
Lemma zero_limit_is_watch_mode_witness :
  exists w1,
    deliver (Listed None ["x0000000002"; "x0000000001"])
            (outcome [CallLock; Created None "/locks/a/x0000000002"]
                     (init demo_zero)) = Some w1 /\
    lastChildId (session w1) = Some "x0000000001" /\
    In (ClientExists "/locks/a/x0000000001" true) (output w1) /\
    In PWatch (outstanding w1).
Proof.
  destruct (zero_limit_is_watch_mode demo_zero
              [CallLock; Created None "/locks/a/x0000000002"] eq_refl)
    as [_ H].
  destruct (H (outcome [CallLock; Created None "/locks/a/x0000000002"]
                       (init demo_zero)) eq_refl)
    as (_ & _ & _ & _ & _ & R).
  destruct (R "x0000000002" ["x0000000002"; "x0000000001"])
    as (w1 & Hd & Hl & Ho & _ & Hp & _).
  - reflexivity.
  - left. reflexivity.
  - intros [_ F].
    specialize (F "x0000000001" (or_intror (or_introl eq_refl))).
    discriminate.
  - exists w1. split; [exact Hd |]. split; [exact Hl |]. split; [| exact Hp].
    rewrite Ho. apply in_or_app. right. right. left. reflexivity.
Defined.

(** * Further properties *)

(** ** What every run keeps *)

Section Runs.

Lemma deliver_shape (ev : event) (w w' : world) :
  deliver ev w = Some w' ->
  exists rest,
    (forall q, In q rest -> In q (outstanding w)) /\
    (forall p, answers ev = Some p -> In p (outstanding w)) /\
    w' = mkWorld (fst (exec (handler ev) (session w)))
                 (rest ++ flat_map owed (snd (exec (handler ev) (session w))))
                 (output w ++ snd (exec (handler ev) (session w))).
Proof.
  unfold deliver, fire.
  destruct (exec (handler ev) (session w)) as [c' out]. simpl.
  destruct (answers ev) as [p|].
  - destruct (take_out p (outstanding w)) as [rest|] eqn:E; [|discriminate].
    intros [= <-]. exists rest. destruct (take_out_sub _ _ _ E) as [Hp Hsub].
    repeat split; [exact Hsub | intros q [= <-]; exact Hp].
  - intros [= <-]. exists (outstanding w). repeat split; [auto | discriminate].
Qed.

Lemma run_keeps (P : world -> Prop) :
  (forall ev w w', P w -> deliver ev w = Some w' -> P w') ->
  forall evs w w', P w -> run evs w = Some w' -> P w'.
Proof.
  intros Hstep evs. induction evs as [|ev evs IH]; simpl; intros w w' Hw.
  - intros [= <-]. exact Hw.
  - destruct (deliver ev w) as [w1|] eqn:E; [|discriminate].
    apply IH. exact (Hstep ev w w1 Hw E).
Qed.

Lemma handler_keeps_request (ev : event) (c : ctx) :
  request (fst (exec (handler ev) c)) = request c.
Proof.
  destruct c as [rn rid t mx w cb0 sq acq lst cc]. unfold request.
  destruct ev as [| |err path|err children|err stat random| |k err|tm|g];
    try destruct k; try destruct tm;
    js; repeat (branch; js); reflexivity.
Qed.

Lemma collisions_value (c : ctx) :
  collisions c = match collisionCount c with Some n => n | None => 0 end.
Proof.
  unfold collisions. destruct (collisionCount c) as [n|]; [|reflexivity].
  destruct (Z.eqb_spec n 0); congruence.
Qed.

Lemma handler_counts (ev : event) (c : ctx) :
  collisionCount (fst (exec (handler ev) c)) = collisionCount c \/
  collisionCount (fst (exec (handler ev) c)) = Some (collisions c) \/
  exists n, collisionCount c = Some n /\
            collisionCount (fst (exec (handler ev) c)) = Some (n + 1).
Proof.
  destruct c as [rn rid t mx w cb0 sq acq lst cc].
  destruct ev as [| |err path|err children|err stat random| |k err|tm|g];
    try destruct k; try destruct tm.
  all: try (js; repeat (branch; js); left; reflexivity).
  - unfold collisions. js.
    destruct err; js; [repeat (branch; js); left; reflexivity|].
    destruct stat; js; [|left; reflexivity].
    destruct (truthy_num mx); js; [|left; reflexivity].
    repeat (branch; js); right; left; reflexivity.
  - js. destruct cc as [n|]; js; [|left; reflexivity].
    right. right. exists n. split; reflexivity.
Qed.

Lemma run_keeps_request (evs : list event) (w w' : world) :
  run evs w = Some w' -> request (session w') = request (session w).
Proof.
  intros Hrun.
  apply (run_keeps (fun v => request (session v) = request (session w)))
    with (evs := evs) (w := w); [|reflexivity|exact Hrun].
  intros ev v v' Hv Hd.
  destruct (deliver_shape ev v v' Hd) as (rest & _ & _ & ->). simpl.
  rewrite handler_keeps_request. exact Hv.
Qed.

End Runs.

(** X8.  No event changes the caller's request: after any run the resource
    name, the resource id, the TTL, the retry limit and the initial wait of
    the session are those it started with. *)
Theorem request_never_changes (evs : list event) (w w' : world) :
  run evs w = Some w' ->
  resourceName (session w') = resourceName (session w) /\
  resourceId (session w') = resourceId (session w) /\
  ttl (session w') = ttl (session w) /\
  maxRetryCount (session w') = maxRetryCount (session w) /\
  initialRetryWaitMs (session w') = initialRetryWaitMs (session w).
Proof.
  intros Hrun. pose proof (run_keeps_request evs w w' Hrun) as H.
  unfold request in H. injection H as H1 H2 H3 H4 H5. auto.
Qed.

Lemma request_never_changes_witness :
  ttl (session (outcome demo_events (init demo_ttl))) = Some 1000.
Proof.
  apply (request_never_changes demo_events (init demo_ttl)).
  vm_compute. reflexivity.
Defined.

(** X13.  The collision count never goes down: after any run the value of
    [collisionCount || 0] is at least what it was, also across a failed
    attempt and a new [lock] on the same session. *)
Theorem collisions_never_decrease (evs : list event) (w w' : world) :
  run evs w = Some w' -> collisions (session w) <= collisions (session w').
Proof.
  intros Hrun.
  apply (run_keeps (fun v => collisions (session w) <= collisions (session v)))
    with (evs := evs) (w := w); [|lia|exact Hrun].
  intros ev v v' Hv Hd.
  destruct (deliver_shape ev v v' Hd) as (rest & _ & _ & ->). simpl.
  pose proof (handler_counts ev (session v)) as Hc.
  rewrite (collisions_value (fst (exec (handler ev) (session v)))).
  destruct Hc as [Hc|[Hc|(n & Hn & Hc)]]; rewrite Hc.
  - rewrite <- collisions_value. exact Hv.
  - exact Hv.
  - rewrite (collisions_value (session v)), Hn in Hv. lia.
Qed.

Lemma collisions_never_decrease_witness :
  collisions (session demo_polling)
  <= collisions (session (outcome (retry demo_round ++ retry demo_round)
                                  demo_polling)).
Proof.
  apply (collisions_never_decrease (retry demo_round ++ retry demo_round)).
  vm_compute. reflexivity.
Defined.

(** ** Sessions without a TTL, sessions that poll *)

Section Modes.

Lemma filter_none {A} (f : A -> bool) (l : list A) :
  Forall (fun e => f e = false) l -> filter f l = [].
Proof.
  induction 1 as [|e t He _ IH]; simpl; [reflexivity|]. rewrite He. exact IH.
Qed.

Lemma ttl_of_request (c c' : ctx) : request c' = request c -> ttl c' = ttl c.
Proof. unfold request. intros [= _ _ H _ _]. exact H. Qed.

Lemma limit_of_request (c c' : ctx) :
  request c' = request c -> maxRetryCount c' = maxRetryCount c.
Proof. unfold request. intros [= _ _ _ H _]. exact H. Qed.

Lemma name_of_request (c c' : ctx) :
  request c' = request c -> resourceName c' = resourceName c.
Proof. unfold request. intros [= H _ _ _ _]. exact H. Qed.

Lemma handler_untimed (ev : event) (c : ctx) :
  truthy_num (ttl c) = false -> ev <> Fired TtlTimer ->
  Forall (fun e => is_ttl_effect e = false) (snd (exec (handler ev) c)).
Proof.
  intros H Hev. destruct c as [rn rid t mx w cb0 sq acq lst cc].
  change (truthy_num t = false) in H.
  destruct ev as [| |err path|err children|err stat random| |k err|tm|g];
    try destruct k; try destruct tm; try contradiction.
  all: repeat progress (js; rewrite ?H);
    repeat (branch; repeat progress (js; rewrite ?H));
    repeat constructor.
Qed.

Lemma owed_ttl (e : effect) :
  In (PTimer TtlTimer) (owed e) -> is_ttl_effect e = true.
Proof.
  destruct e as [ch args|path|path|path watch|path ver k|t delay|f|name arg|f args|];
    simpl; try tauto.
  - intros [F|[]]; discriminate.
  - intros [F|[]]; discriminate.
  - destruct watch; simpl; intuition discriminate.
  - intros [F|[]]; discriminate.
  - destruct t; [reflexivity | intros [F|[]]; discriminate].
  - intros [F|[]]; discriminate.
Qed.

Lemma untimed_deliver (ev : event) (w w' : world) :
  untimed w -> deliver ev w = Some w' -> untimed w'.
Proof.
  intros (Httl & Hpend & Hout) Hd.
  destruct (deliver_shape ev w w' Hd) as (rest & Hsub & Hans & ->).
  assert (Hev : ev <> Fired TtlTimer).
  { intros ->. apply Hpend. apply Hans. reflexivity. }
  pose proof (handler_untimed ev (session w) Httl Hev) as Hnew.
  repeat split; simpl.
  - rewrite (ttl_of_request _ _ (handler_keeps_request ev (session w))). exact Httl.
  - intros F. apply in_app_or in F. destruct F as [F|F].
    + apply Hpend, Hsub, F.
    + apply in_flat_map in F. destruct F as (e & He & Hp).
      apply owed_ttl in Hp. rewrite Forall_forall in Hnew.
      rewrite (Hnew e He) in Hp. discriminate.
  - apply Forall_app. split; assumption.
Qed.

Lemma handler_unwatched (ev : event) (c : ctx) :
  truthy_num (maxRetryCount c) = true ->
  Forall (fun e => is_watched_check e = false) (snd (exec (handler ev) c)).
Proof.
  intros H. destruct c as [rn rid t mx w cb0 sq acq lst cc].
  change (truthy_num mx = true) in H.
  destruct ev as [| |err path|err children|err stat random| |k err|tm|g];
    try destruct k; try destruct tm.
  all: repeat progress (js; rewrite ?H);
    repeat (branch; repeat progress (js; rewrite ?H));
    repeat constructor.
Qed.

Lemma owed_watch (e : effect) : In PWatch (owed e) -> is_watched_check e = true.
Proof.
  destruct e as [ch args|path|path|path watch|path ver k|t delay|f|name arg|f args|];
    simpl; try tauto.
  - intros [F|[]]; discriminate.
  - intros [F|[]]; discriminate.
  - destruct watch; simpl; [reflexivity | intuition discriminate].
  - intros [F|[]]; discriminate.
  - intros [F|[]]; discriminate.
  - intros [F|[]]; discriminate.
Qed.

Lemma unwatched_deliver (ev : event) (w w' : world) :
  unwatched w -> deliver ev w = Some w' -> unwatched w'.
Proof.
  intros (Hlim & Hpend & Hout) Hd.
  destruct (deliver_shape ev w w' Hd) as (rest & Hsub & _ & ->).
  pose proof (handler_unwatched ev (session w) Hlim) as Hnew.
  repeat split; simpl.
  - rewrite (limit_of_request _ _ (handler_keeps_request ev (session w))).
    exact Hlim.
  - intros F. apply in_app_or in F. destruct F as [F|F].
    + apply Hpend, Hsub, F.
    + apply in_flat_map in F. destruct F as (e & He & Hp).
      apply owed_watch in Hp. rewrite Forall_forall in Hnew.
      rewrite (Hnew e He) in Hp. discriminate.
  - apply Forall_app. split; assumption.
Qed.

End Modes.

(** X7.  A session whose [ttl] is falsy (absent or 0) is never forced to
    release: whatever the events, no TTL timer is set, ['ttlExpired'] is
    never emitted, and the expiry of a TTL cannot be delivered. *)
Theorem no_ttl_no_forced_release (c : ctx) (evs : list event) (w : world) :
  truthy_num (ttl c) = false -> run evs (init c) = Some w ->
  filter is_ttl_effect (output w) = [] /\
  deliver (Fired TtlTimer) w = None.
Proof.
  intros Httl Hrun.
  assert (Hw : untimed w).
  { apply (run_keeps untimed untimed_deliver evs (init c) w); [|exact Hrun].
    repeat split; simpl; auto. }
  destruct Hw as (_ & Hpend & Hout). split.
  - apply filter_none. exact Hout.
  - apply (deliver_unawaited (Fired TtlTimer) (PTimer TtlTimer) w eq_refl Hpend).
Qed.

Lemma no_ttl_no_forced_release_witness :
  filter is_ttl_effect (output (outcome demo_events (init demo))) = [] /\
  deliver (Fired TtlTimer) (outcome demo_events (init demo)) = None.
Proof.
  apply (no_ttl_no_forced_release demo demo_events).
  - reflexivity.
  - vm_compute. reflexivity.
Defined.

(** X10.  A session with a retry limit (a truthy [maxRetryCount]) never
    leaves a watch at the store: whatever the events, every existence check
    it asks for is without a watch function, and no watch can fire. *)
Theorem polling_never_watches (c : ctx) (evs : list event) (w : world) :
  truthy_num (maxRetryCount c) = true -> run evs (init c) = Some w ->
  filter is_watched_check (output w) = [] /\
  deliver Watched w = None.
Proof.
  intros Hlim Hrun.
  assert (Hw : unwatched w).
  { apply (run_keeps unwatched unwatched_deliver evs (init c) w); [|exact Hrun].
    repeat split; simpl; auto. }
  destruct Hw as (_ & Hpend & Hout). split.
  - apply filter_none. exact Hout.
  - apply (deliver_unawaited Watched PWatch w eq_refl Hpend).
Qed.

Lemma polling_never_watches_witness :
  filter is_watched_check
    (output (outcome (CallLock :: Created None "/locks/a/x0000000002"
                        :: retry demo_round)
               (init (session demo_polling)))) = [] /\
  deliver Watched
    (outcome (CallLock :: Created None "/locks/a/x0000000002" :: retry demo_round)
       (init (session demo_polling))) = None.
Proof.
  apply (polling_never_watches (session demo_polling)
           (CallLock :: Created None "/locks/a/x0000000002" :: retry demo_round)).
  - reflexivity.
  - vm_compute. reflexivity.
Defined.

(** ** Paths *)

(** Case analysis on the next condition tested, or on an optional field of
    the session. *)
Ltac branch_field :=
  match goal with
  | |- context [if ?b then _ else _] => destruct b
  | |- context [match ?o with Some _ => _ | None => _ end] => is_var o; destruct o
  end.

Section Paths.

Lemma under_named (dir p : string) : under dir p -> p <> "".
Proof.
  intros [s ->]. destruct dir; simpl; discriminate.
Qed.

Lemma handler_tidy (ev : event) (c : ctx) :
  held_under c ->
  held_under (fst (exec (handler ev) c)) /\
  Forall (removes_under (resourceName c)) (snd (exec (handler ev) c)).
Proof.
  unfold held_under. destruct c as [rn rid t mx w cb0 sq acq lst cc].
  simpl acquiredResource. simpl resourceName. intros H.
  destruct acq as [p|];
    destruct ev as [| |err path|err children|err stat random| |k err|tm|g];
    try destruct k; try destruct tm.
  all: repeat progress (js; cbv beta iota delta [truthy_str tmpl vopt]);
    repeat (branch_field;
            repeat progress (js; cbv beta iota delta [truthy_str tmpl vopt]));
    split.
  all: try first [exact H | exact I | eexists; reflexivity].
  all: repeat (constructor;
               try first [exact H | exact I | eexists; reflexivity]).
Qed.

Lemma tidy_deliver (ev : event) (w w' : world) :
  tidy w -> deliver ev w = Some w' -> tidy w'.
Proof.
  intros [Hheld Hout] Hd.
  destruct (deliver_shape ev w w' Hd) as (rest & _ & _ & ->).
  destruct (handler_tidy ev (session w) Hheld) as [Hheld' Hnew].
  unfold tidy. simpl.
  rewrite (name_of_request _ _ (handler_keeps_request ev (session w))).
  split; [exact Hheld'|]. apply Forall_app. split; assumption.
Qed.

End Paths.

(** X9.  A session that starts without a held path only ever holds, and
    only ever asks the store to remove, paths of the form
    [resourceName/...]; so a held path is never the empty string, and the
    test [!ctx.acquiredResource] of [unlock] is true only when nothing is
    held. *)
Theorem releases_stay_under_resource (c : ctx) (evs : list event) (w : world) :
  acquiredResource c = None -> run evs (init c) = Some w ->
  held_under (session w) /\
  (forall p ver k, In (ClientRemove p ver k) (output w) ->
                   under (resourceName c) p) /\
  (truthy_str (acquiredResource (session w)) = false ->
   acquiredResource (session w) = None).
Proof.
  intros Hnone Hrun.
  assert (Hw : tidy w).
  { apply (run_keeps tidy tidy_deliver evs (init c) w); [|exact Hrun].
    split; simpl; [|constructor]. unfold held_under. rewrite Hnone. exact I. }
  destruct Hw as [Hheld Hout].
  pose proof (run_keeps_request evs (init c) w Hrun) as Hreq.
  apply name_of_request in Hreq. simpl in Hreq. rewrite Hreq in Hout.
  split; [exact Hheld|]. split.
  - intros p ver k Hin. rewrite Forall_forall in Hout. exact (Hout _ Hin).
  - unfold held_under in Hheld.
    destruct (acquiredResource (session w)) as [p|]; [|reflexivity].
    intros F. apply under_named in Hheld. apply truthy_str_Some in Hheld.
    congruence.
Qed.

Lemma releases_stay_under_resource_witness :
  held_under
    (session (outcome [CallLock; Created None "/locks/a/x0000000001";
                       Listed None ["x0000000001"]] (init demo))).
Proof.
  apply (releases_stay_under_resource demo
           [CallLock; Created None "/locks/a/x0000000001";
            Listed None ["x0000000001"]]).
  - reflexivity.
  - vm_compute. reflexivity.
Defined.

(** ** The order of the listing *)

Section Listing.

Lemma leb_false_flip (a b : string) :
  String.leb a b = false -> String.leb b a = true.
Proof.
  intros H. destruct (String.leb_total a b) as [F|F]; [congruence | exact F].
Qed.

Lemma insert_insert (x y : string) (l : list string) :
  insert x (insert y l) = insert y (insert x l).
Proof.
  induction l as [|a t IH]; simpl.
  - destruct (String.leb x y) eqn:Exy, (String.leb y x) eqn:Eyx; try reflexivity.
    + rewrite (String.leb_antisym _ _ Exy Eyx). reflexivity.
    + apply leb_false_flip in Exy. congruence.
  - destruct (String.leb y a) eqn:Eya, (String.leb x a) eqn:Exa; simpl.
    + destruct (String.leb x y) eqn:Exy, (String.leb y x) eqn:Eyx;
        rewrite ?Exa, ?Eya; try reflexivity.
      * rewrite (String.leb_antisym _ _ Exy Eyx). reflexivity.
      * apply leb_false_flip in Exy. congruence.
    + rewrite Eya.
      assert (Exy : String.leb x y = false).
      { destruct (String.leb x y) eqn:E; [|reflexivity].
        rewrite (leb_trans _ _ _ E Eya) in Exa. discriminate. }
      rewrite Exy, Exa. reflexivity.
    + rewrite Exa.
      assert (Eyx : String.leb y x = false).
      { destruct (String.leb y x) eqn:E; [|reflexivity].
        rewrite (leb_trans _ _ _ E Exa) in Eya. discriminate. }
      rewrite Eyx, Eya. reflexivity.
    + rewrite Exa, Eya, IH. reflexivity.
Qed.

Lemma sort_permutation (l l' : list string) :
  Permutation l l' -> sort l = sort l'.
Proof.
  induction 1 as [|x l l' _ IH|x y l|l l' l'' _ IH1 _ IH2]; simpl.
  - reflexivity.
  - rewrite IH. reflexivity.
  - apply insert_insert.
  - rewrite IH1. exact IH2.
Qed.

Lemma listed_by_sort (c : ctx) (err : option Exception)
    (children children' : list string) :
  sort children = sort children' ->
  exec (getChildren_listed err children) c
  = exec (getChildren_listed err children') c.
Proof.
  intros H. destruct c as [rn rid t mx w cb0 sq acq lst cc].
  destruct err; js; rewrite ?H; reflexivity.
Qed.

End Listing.

(** X3.  The store lists the children in no particular order, and the
    order does not matter: two listings with the same children, in whatever
    order, leave the session in the same state and make it do the same
    things. *)
Theorem listing_order_irrelevant (c : ctx) (err : option Exception)
    (children children' : list string) :
  Permutation children children' ->
  exec (getChildren_listed err children) c
  = exec (getChildren_listed err children') c.
Proof.
  intros H. apply listed_by_sort. apply sort_permutation. exact H.
Qed.

Lemma listing_order_irrelevant_witness :
  exec (getChildren_listed None ["x0000000002"; "x0000000001"]) demo_queued
  = exec (getChildren_listed None ["x0000000001"; "x0000000002"]) demo_queued.
Proof.
  apply (listing_order_irrelevant demo_queued None).
  apply perm_swap.
Defined.

(** X4.  Two sessions with different nodes that list the same children, in
    whatever order, are never both acquired: at most one of them has its
    success callback called. *)
Theorem one_node_acquires (c1 c2 : ctx) (s1 s2 : string) (f1 f2 : callback)
    (children1 children2 : list string) :
  seqZnode c1 = Some s1 -> seqZnode c2 = Some s2 -> s1 <> s2 ->
  Permutation children1 children2 ->
  In (CallCb f1 [VNull; VCtx]) (snd (exec (getChildren_listed None children1) c1)) ->
  ~ In (CallCb f2 [VNull; VCtx])
       (snd (exec (getChildren_listed None children2) c2)).
Proof.
  intros H1 H2 Hne Hperm A1 A2.
  destruct (acquired_only_when_listed (Listed None children1) c1 f1 A1)
    as (l1 & E1 & T1).
  destruct (acquired_only_when_listed (Listed None children2) c2 f2 A2)
    as (l2 & E2 & T2).
  injection E1 as <-. injection E2 as <-.
  rewrite (sort_permutation _ _ Hperm), H1 in T1. rewrite H2 in T2.
  destruct (at_index (sort children2) 0) as [m|]; simpl in T1, T2;
    [|discriminate].
  apply String.eqb_eq in T1, T2. congruence.
Qed.

Lemma one_node_acquires_witness :
  ~ In (CallCb (UserCb 0) [VNull; VCtx])
       (snd (exec (getChildren_listed None ["x0000000001"; "x0000000002"])
               demo_queued)).
Proof.
  apply (one_node_acquires (with_seqZnode (Some "x0000000001") demo) demo_queued
           "x0000000001" "x0000000002" (UserCb 0) (UserCb 0)
           ["x0000000002"; "x0000000001"] ["x0000000001"; "x0000000002"]).
  - reflexivity.
  - reflexivity.
  - discriminate.
  - apply perm_swap.
  - simpl. right. right. left. reflexivity.
Defined.

(** ** A node that is not listed *)

(** X5.  When the session's node is not among the listed children (an empty
    listing included), no index is found, [lastChildId] becomes undefined
    and the session checks the existence of [resourceName/undefined];
    nothing is reported to the caller. *)
Theorem unlisted_node_waits_on_undefined (c : ctx) (s : string)
    (children : list string) :
  seqZnode c = Some s -> ~ In s children ->
  exec (getChildren_listed None children) c =
    (with_lastChildId None c,
     [Log OnDebug [VString "Children of %s are: %j.";
                   VString (resourceName c); VList (sort children)];
      ClientExists (resourceName c ++ "/undefined")
                   (negb (truthy_num (maxRetryCount c)))]).
Proof.
  intros Hseq Hin.
  assert (Hsorted : ~ In s (sort children)).
  { intros F. apply Hin. apply sort_In. exact F. }
  assert (Hhead : strict_eq (Some s) (at_index (sort children) 0) = false).
  { destruct (strict_eq (Some s) (at_index (sort children) 0)) eqn:E;
      [|reflexivity].
    apply head_is_smallest in E. destruct E as [F _]. contradiction. }
  pose proof (findIndex_absent _ s (sort children) (same_as_seqZnode s) Hsorted)
    as Hidx.
  destruct c as [rn rid t mx w cb0 sq acq lst cc]. simpl in Hseq. subst sq.
  js. rewrite Hhead. js. rewrite Hidx. reflexivity.
Qed.

Lemma unlisted_node_waits_on_undefined_witness :
  exec (getChildren_listed None []) demo_queued =
    (with_lastChildId None demo_queued,
     [Log OnDebug [VString "Children of %s are: %j."; VString "/locks/a"; VList []];
      ClientExists "/locks/a/undefined" true]).
Proof.
  apply (unlisted_node_waits_on_undefined demo_queued "x0000000002" []).
  - reflexivity.
  - intros [].
Defined.

(** ** From the created path to the held path *)

Section Created.

Lemma split_single (name : string) :
  no_slash name = true -> split "/" name = [name].
Proof.
  induction name as [|ch r IH]; simpl; [reflexivity|].
  intros H. apply andb_prop in H. destruct H as [Hc Hr].
  destruct (Ascii.eqb ch "/"); [discriminate|].
  rewrite (IH Hr). reflexivity.
Qed.

Lemma split_after_slash (dir name : string) :
  exists h t, split "/" (dir ++ "/" ++ name) = ((h :: t) ++ split "/" name)%list.
Proof.
  induction dir as [|ch r IH].
  - exists "", []. reflexivity.
  - destruct IH as (h & t & IH).
    change (split "/" (String ch r ++ "/" ++ name))
      with (if Ascii.eqb ch "/" then "" :: split "/" (r ++ "/" ++ name)
            else match split "/" (r ++ "/" ++ name) with
                 | a :: b => String ch a :: b
                 | [] => [String ch ""]
                 end).
    rewrite IH. destruct (Ascii.eqb ch "/").
    + exists "", (h :: t). reflexivity.
    + exists (String ch h), t. reflexivity.
Qed.

Lemma split_pop_name (dir name : string) :
  no_slash name = true -> split_pop (dir ++ "/" ++ name) = name.
Proof.
  intros H. unfold split_pop.
  destruct (split_after_slash dir name) as (h & t & ->).
  rewrite (split_single name H). apply last_last.
Qed.

Lemma run_app (evs evs' : list event) (w : world) :
  run (evs ++ evs') w =
  match run evs w with Some w' => run evs' w' | None => None end.
Proof.
  revert w. induction evs as [|ev evs IH]; intros w; simpl; [reflexivity|].
  destruct (deliver ev w); [apply IH | reflexivity].
Qed.

Lemma listed_first (c : ctx) (s : string) (f : callback) (children : list string) :
  seqZnode c = Some s -> cb c = Some f -> smallest s children ->
  exec (getChildren_listed None children) c =
    (with_cb None (with_acquiredResource (Some (resourceName c ++ "/" ++ s)) c),
     (Log OnDebug [VString "Children of %s are: %j.";
                   VString (resourceName c); VList (sort children)]
      :: (if truthy_num (ttl c)
          then [SetTimeout TtlTimer (match ttl c with Some t => t | None => 0 end)]
          else [])
      ++ [Log OnDebug [VString "lock acquired";
                       VString (resourceName c ++ "/" ++ s)];
          CallCb f [VNull; VCtx]])%list).
Proof.
  intros Hseq Hcb Hs. apply head_is_smallest in Hs.
  destruct c as [rn rid t mx w cb0 sq acq lst cc]. simpl in Hseq, Hcb. subst sq cb0.
  js. rewrite Hs. js. destruct (truthy_num t); reflexivity.
Qed.

Lemma acquire_run (c : ctx) (f : callback) (name : string)
    (children : list string) :
  cb c = Some f -> no_slash name = true -> smallest name children ->
  let path := resourceName c ++ "/" ++ name in
  run [CallLock; Created None path; Listed None children] (init c) =
    Some (mkWorld
            (with_cb None
               (with_acquiredResource (Some path) (with_seqZnode (Some name) c)))
            (if truthy_num (ttl c) then [PTimer TtlTimer] else [])
            ([ClientCreate (resourceName c ++ "/" ++ resourceId c);
              Log OnDebug [VString "znode created"; VString path];
              ClientGetChildren (resourceName c);
              Log OnDebug [VString "Children of %s are: %j.";
                           VString (resourceName c); VList (sort children)]]
             ++ (if truthy_num (ttl c)
                 then [SetTimeout TtlTimer
                         (match ttl c with Some t => t | None => 0 end)]
                 else [])
             ++ [Log OnDebug [VString "lock acquired"; VString path];
                 CallCb f [VNull; VCtx]])).
Proof.
  intros Hcb Hname Hs path. subst path.
  set (c1 := with_seqZnode (Some name) c).
  assert (E1 : exec (handler CallLock) c =
               (c, [ClientCreate (resourceName c ++ "/" ++ resourceId c)])).
  { destruct c. reflexivity. }
  assert (E2 : exec (handler (Created None (resourceName c ++ "/" ++ name))) c =
               (c1, [Log OnDebug [VString "znode created";
                                  VString (resourceName c ++ "/" ++ name)];
                     ClientGetChildren (resourceName c)])).
  { subst c1. destruct c as [rn rid t mx w cb0 sq acq lst cc]. js.
    rewrite (split_pop_name rn name Hname). reflexivity. }
  pose proof (listed_first c1 name f children eq_refl Hcb Hs) as E3.
  change (ttl c1) with (ttl c) in E3.
  change (resourceName c1) with (resourceName c) in E3.
  set (w1 := mkWorld c [PCreated]
               [ClientCreate (resourceName c ++ "/" ++ resourceId c)]).
  set (w2 := mkWorld c1 [PListed]
               [ClientCreate (resourceName c ++ "/" ++ resourceId c);
                Log OnDebug [VString "znode created";
                             VString (resourceName c ++ "/" ++ name)];
                ClientGetChildren (resourceName c)]).
  assert (D1 : deliver CallLock (init c) = Some w1).
  { rewrite (deliver_entry CallLock (init c) _ _ eq_refl E1). reflexivity. }
  assert (D2 : deliver (Created None (resourceName c ++ "/" ++ name)) w1 = Some w2).
  { rewrite (deliver_awaited (Created None (resourceName c ++ "/" ++ name))
               PCreated w1 [] _ _ eq_refl eq_refl E2).
    reflexivity. }
  cbn [run]. rewrite D1, D2.
  rewrite (deliver_awaited (Listed None children) PListed w2 [] _ _ eq_refl
             eq_refl E3).
  destruct (truthy_num (ttl c)); reflexivity.
Qed.

Lemma ttl_expired_held (c : ctx) (p : string) :
  acquiredResource c = Some p -> p <> "" ->
  exec ttl_expired c =
    (with_cb (Some (cb_or_empty c)) c,
     [Log OnError [VString "lock held time exceeds TTL, force releasing lock";
                   VString p];
      Emit "ttlExpired" (resourceId c);
      Log OnDebug [VString "removing"; VString p];
      ClientRemove p (-1) UnlockRemoved]).
Proof.
  intros Hacq Hp. pose proof (truthy_str_Some p Hp) as Ht.
  destruct c as [rn rid t mx w cb0 sq acq lst cc]. simpl in Hacq. subst acq.
  js. rewrite Ht. reflexivity.
Qed.

End Created.

(** X2.  When the store creates [resourceName/name], with no slash in
    [name], and [name] is the smallest child, the session keeps [name] as its
    node, holds exactly the created path, reports success once, and a later
    [unlock] asks the store to remove exactly that path. *)
Theorem held_path_is_created_path (c : ctx) (f : callback) (name : string)
    (children : list string) :
  cb c = Some f -> no_slash name = true -> smallest name children ->
  let path := resourceName c ++ "/" ++ name in
  exists w w',
    run [CallLock; Created None path; Listed None children] (init c) = Some w /\
    seqZnode (session w) = Some name /\
    acquiredResource (session w) = Some path /\
    filter is_callback (output w) = [CallCb f [VNull; VCtx]] /\
    deliver CallUnlock w = Some w' /\
    filter is_store_call (output w') =
      [ClientCreate (resourceName c ++ "/" ++ resourceId c);
       ClientGetChildren (resourceName c);
       ClientRemove path (-1) UnlockRemoved].
Proof.
  intros Hcb Hname Hs path. subst path.
  pose proof (acquire_run c f name children Hcb Hname Hs) as Hrun.
  cbv zeta in Hrun.
  assert (Hp : resourceName c ++ "/" ++ name <> "").
  { apply (under_named (resourceName c)). exists name. reflexivity. }
  set (c2 := with_cb None
               (with_acquiredResource (Some (resourceName c ++ "/" ++ name))
                  (with_seqZnode (Some name) c))) in *.
  pose proof (unlock_held c2 (resourceName c ++ "/" ++ name) eq_refl Hp) as H3.
  eexists. eexists. split; [exact Hrun|].
  split; [reflexivity|]. split; [reflexivity|].
  split; [|split].
  - simpl. destruct (truthy_num (ttl c)); reflexivity.
  - apply deliver_entry; [reflexivity | exact H3].
  - simpl. rewrite !filter_app. destruct (truthy_num (ttl c)); reflexivity.
Qed.

Lemma held_path_is_created_path_witness :
  exists w w',
    run [CallLock; Created None "/locks/a/x0000000001";
         Listed None ["x0000000001"]] (init demo) = Some w /\
    seqZnode (session w) = Some "x0000000001" /\
    acquiredResource (session w) = Some "/locks/a/x0000000001" /\
    filter is_callback (output w) = [CallCb (UserCb 0) [VNull; VCtx]] /\
    deliver CallUnlock w = Some w' /\
    filter is_store_call (output w') =
      [ClientCreate "/locks/a/x"; ClientGetChildren "/locks/a";
       ClientRemove "/locks/a/x0000000001" (-1) UnlockRemoved].
Proof.
  apply (held_path_is_created_path demo (UserCb 0) "x0000000001"
           ["x0000000001"]).
  - reflexivity.
  - reflexivity.
  - split; [left; reflexivity | intros x [<-|[]]; reflexivity].
Defined.

(** ** Forced release *)

(** X6.  A lock acquired with a TTL and never released is released by the
    timer: when it fires, ['ttlExpired'] is emitted with the resource id and
    the held path is removed from the store; once the removal has succeeded
    nothing is held and nothing is owed any more.  The caller's callback,
    deleted on acquisition, is not called again. *)
Theorem ttl_forces_release (c : ctx) (f : callback) (name : string)
    (children : list string) (t : Z) :
  cb c = Some f -> ttl c = Some t -> t <> 0 ->
  no_slash name = true -> smallest name children ->
  let path := resourceName c ++ "/" ++ name in
  exists w,
    run [CallLock; Created None path; Listed None children;
         Fired TtlTimer; Removed UnlockRemoved None] (init c) = Some w /\
    acquiredResource (session w) = None /\
    outstanding w = [] /\
    actions (output w) =
      [ClientCreate (resourceName c ++ "/" ++ resourceId c);
       ClientGetChildren (resourceName c);
       SetTimeout TtlTimer t;
       CallCb f [VNull; VCtx];
       Emit "ttlExpired" (resourceId c);
       ClientRemove path (-1) UnlockRemoved;
       CallCb EmptyFn []].
Proof.
  intros Hcb Httl Ht Hname Hs path. subst path.
  pose proof (acquire_run c f name children Hcb Hname Hs) as Hrun.
  cbv zeta in Hrun.
  assert (Htruthy : truthy_num (ttl c) = true).
  { rewrite Httl. simpl. apply Z.eqb_neq in Ht. rewrite Ht. reflexivity. }
  rewrite Htruthy, Httl in Hrun.
  assert (Hp : resourceName c ++ "/" ++ name <> "").
  { apply (under_named (resourceName c)). exists name. reflexivity. }
  set (c2 := with_cb None
               (with_acquiredResource (Some (resourceName c ++ "/" ++ name))
                  (with_seqZnode (Some name) c))) in *.
  pose proof (ttl_expired_held c2 (resourceName c ++ "/" ++ name) eq_refl Hp) as E4.
  pose proof (unlock_removed_ok (with_cb (Some (cb_or_empty c2)) c2) EmptyFn
                eq_refl) as E5.
  match type of Hrun with _ = Some ?x => set (w3 := x) in * end.
  set (w4 := mkWorld (with_cb (Some (cb_or_empty c2)) c2)
                 [PRemoved UnlockRemoved]
                 (output w3 ++ snd (exec ttl_expired c2))).
  assert (D4 : deliver (Fired TtlTimer) w3 = Some w4).
  { rewrite (deliver_awaited (Fired TtlTimer) (PTimer TtlTimer) w3 [] _ _
               eq_refl eq_refl E4).
    unfold w4. rewrite E4. reflexivity. }
  eexists. split; [|split; [|split]].
  - change [CallLock; Created None (resourceName c ++ "/" ++ name);
            Listed None children; Fired TtlTimer; Removed UnlockRemoved None]
      with ([CallLock; Created None (resourceName c ++ "/" ++ name);
             Listed None children]
            ++ [Fired TtlTimer; Removed UnlockRemoved None])%list.
    rewrite run_app, Hrun. cbn [run]. rewrite D4.
    rewrite (deliver_awaited (Removed UnlockRemoved None) (PRemoved UnlockRemoved)
               w4 [] _ _ eq_refl eq_refl E5).
    reflexivity.
  - reflexivity.
  - reflexivity.
  - subst w4 w3. cbn [output]. rewrite E4. destruct c; reflexivity.
Qed.

Lemma ttl_forces_release_witness :
  exists w,
    run [CallLock; Created None "/locks/a/x0000000001";
         Listed None ["x0000000001"];
         Fired TtlTimer; Removed UnlockRemoved None] (init demo_ttl) = Some w /\
    acquiredResource (session w) = None /\
    outstanding w = [] /\
    actions (output w) =
      [ClientCreate "/locks/a/x"; ClientGetChildren "/locks/a";
       SetTimeout TtlTimer 1000;
       CallCb (UserCb 0) [VNull; VCtx];
       Emit "ttlExpired" "x";
       ClientRemove "/locks/a/x0000000001" (-1) UnlockRemoved;
       CallCb EmptyFn []].
Proof.
  apply (ttl_forces_release demo_ttl (UserCb 0) "x0000000001" ["x0000000001"] 1000).
  - reflexivity.
  - reflexivity.
  - discriminate.
  - reflexivity.
  - split; [left; reflexivity | intros x [<-|[]]; reflexivity].
Defined.

(** ** Failures without a node, releases tried again *)

(** X1.  When the creation of the node fails on a session that has no node
    yet, nothing is removed from the store: the caller is told
    ['unable to acquire lock'] at once, the session is unchanged and no
    answer is owed.  The path argument of the callback is not looked at. *)
Theorem create_failure_reports_at_once (c : ctx) (f : callback) (e : Exception)
    (path : string) :
  truthy_str (seqZnode c) = false -> cb c = Some f ->
  run [CallLock; Created (Some e) path] (init c) =
    Some (mkWorld c []
            [ClientCreate (resourceName c ++ "/" ++ resourceId c);
             Log OnError [VString "unable to create ZNode"; VErr e];
             Log OnError [VString "unable to acquire lock";
                          VString "unable to create ZNode"];
             CallCb f [VString "unable to acquire lock"]]).
Proof.
  intros Hseq Hcb.
  assert (E1 : exec (handler CallLock) c =
               (c, [ClientCreate (resourceName c ++ "/" ++ resourceId c)])).
  { destruct c. reflexivity. }
  assert (E2 : exec (handler (Created (Some e) path)) c =
               (c, [Log OnError [VString "unable to create ZNode"; VErr e];
                    Log OnError [VString "unable to acquire lock";
                                 VString "unable to create ZNode"];
                    CallCb f [VString "unable to acquire lock"]])).
  { destruct c as [rn rid t mx w cb0 sq acq lst cc]. simpl in Hseq, Hcb.
    change (truthy_str sq = false) in Hseq. subst cb0.
    js. rewrite Hseq. reflexivity. }
  set (w1 := mkWorld c [PCreated]
               [ClientCreate (resourceName c ++ "/" ++ resourceId c)]).
  assert (D1 : deliver CallLock (init c) = Some w1).
  { rewrite (deliver_entry CallLock (init c) _ _ eq_refl E1). reflexivity. }
  cbn [run]. rewrite D1.
  rewrite (deliver_awaited (Created (Some e) path) PCreated w1 [] _ _
             eq_refl eq_refl E2).
  reflexivity.
Qed.

Lemma create_failure_reports_at_once_witness :
  run [CallLock; Created (Some (mkException NO_NODE)) ""] (init demo) =
    Some (mkWorld demo []
            [ClientCreate "/locks/a/x";
             Log OnError [VString "unable to create ZNode";
                          VErr (mkException NO_NODE)];
             Log OnError [VString "unable to acquire lock";
                          VString "unable to create ZNode"];
             CallCb (UserCb 0) [VString "unable to acquire lock"]]).
Proof.
  apply (create_failure_reports_at_once demo (UserCb 0)).
  - reflexivity.
  - reflexivity.
Defined.

(** X12.  A release that failed can be tried again: after a failed removal
    the session still holds the path, so the next [unlock] asks for the same
    removal once more, and when that one succeeds the path is cleared and
    the callback is called without an error. *)
Theorem unlock_can_be_retried (c : ctx) (p : string) (e : Exception) :
  acquiredResource c = Some p -> p <> "" ->
  let f := cb_or_empty c in
  run [CallUnlock; Removed UnlockRemoved (Some e);
       CallUnlock; Removed UnlockRemoved None] (init c) =
    Some (mkWorld (with_acquiredResource None (with_cb (Some f) c)) []
            [Log OnDebug [VString "removing"; VString p];
             ClientRemove p (-1) UnlockRemoved;
             Log OnDebug [VString "unlock failed"; VString p; VErr e];
             CallCb f [VString "unable to unlock resource"; VString p];
             Log OnDebug [VString "removing"; VString p];
             ClientRemove p (-1) UnlockRemoved;
             Log OnDebug [VString "removed"; VString p];
             CallCb f []]).
Proof.
  intros Hacq Hp f. subst f.
  set (c1 := with_cb (Some (cb_or_empty c)) c).
  pose proof (unlock_held c p Hacq Hp) as E1.
  pose proof (unlock_removed_error c1 (cb_or_empty c) e eq_refl) as E2.
  assert (Hacq1 : acquiredResource c1 = Some p).
  { subst c1. destruct c; exact Hacq. }
  pose proof (unlock_held c1 p Hacq1 Hp) as E3.
  assert (Hsame : with_cb (Some (cb_or_empty c1)) c1 = c1).
  { subst c1. destruct c; reflexivity. }
  rewrite Hsame in E3.
  pose proof (unlock_removed_ok c1 (cb_or_empty c) eq_refl) as E4.
  rewrite Hacq1 in E2, E4.
  set (out1 := [Log OnDebug [VString "removing"; VString p];
                ClientRemove p (-1) UnlockRemoved]) in *.
  set (out2 := [Log OnDebug [VString "unlock failed"; VString p; VErr e];
                CallCb (cb_or_empty c)
                  [VString "unable to unlock resource"; VString p]]) in *.
  set (w1 := mkWorld c1 [PRemoved UnlockRemoved] out1).
  set (w2 := mkWorld c1 [] (out1 ++ out2)).
  set (w3 := mkWorld c1 [PRemoved UnlockRemoved] ((out1 ++ out2) ++ out1)).
  assert (D1 : deliver CallUnlock (init c) = Some w1).
  { rewrite (deliver_entry CallUnlock (init c) _ _ eq_refl E1). reflexivity. }
  assert (D2 : deliver (Removed UnlockRemoved (Some e)) w1 = Some w2).
  { rewrite (deliver_awaited (Removed UnlockRemoved (Some e))
               (PRemoved UnlockRemoved) w1 [] _ _ eq_refl eq_refl E2).
    reflexivity. }
  assert (D3 : deliver CallUnlock w2 = Some w3).
  { rewrite (deliver_entry CallUnlock w2 _ _ eq_refl E3). reflexivity. }
  cbn [run]. rewrite D1, D2, D3.
  rewrite (deliver_awaited (Removed UnlockRemoved None) (PRemoved UnlockRemoved)
             w3 [] _ _ eq_refl eq_refl E4).
  reflexivity.
Qed.

Lemma unlock_can_be_retried_witness :
  option_map (fun w => acquiredResource (session w))
    (run [CallUnlock; Removed UnlockRemoved (Some (mkException (-4)));
          CallUnlock; Removed UnlockRemoved None] (init demo_held))
  = Some None.
Proof.
  rewrite (unlock_can_be_retried demo_held "/locks/a/x0000000001"
             (mkException (-4)) eq_refl ltac:(discriminate)).
  reflexivity.
Defined.

(** ** The shape of the backoff *)

(** [Math.min] of two rounded products is the rounded smaller product. *)
Section WindowShape.

Lemma dmin_round64_l (a1 a2 : Q) :
  (0 < a1)%Q -> (a1 <= a2)%Q ->
  dmin (round64 a1) (round64 a2) = round64 a1.
Proof.
  intros H1 L. assert (H2 : (0 < a2)%Q) by lra.
  pose proof (nearest_mono a1 a2 H1 L) as N.
  rewrite (round64_pos a1 H1), (round64_pos a2 H2).
  destruct (Qle_bool (exp2 1024) (nearest a1)) eqn:B1;
    destruct (Qle_bool (exp2 1024) (nearest a2)) eqn:B2; cbn [dmin];
    try reflexivity.
  - apply Qle_bool_iff in B1.
    assert (C : Qle_bool (exp2 1024) (nearest a2) = true)
      by (apply Qle_bool_iff; lra).
    congruence.
  - assert (C : Qle_bool (Qred (nearest a1)) (Qred (nearest a2)) = true)
      by (apply Qle_bool_iff; rewrite !Qred_correct; exact N).
    rewrite C. reflexivity.
Qed.

Lemma dmin_round64_r (a1 a2 : Q) :
  (0 < a2)%Q -> (a2 <= a1)%Q ->
  dmin (round64 a1) (round64 a2) = round64 a2.
Proof.
  intros H2 L. assert (H1 : (0 < a1)%Q) by lra.
  pose proof (nearest_mono a2 a1 H2 L) as N.
  rewrite (round64_pos a1 H1), (round64_pos a2 H2).
  destruct (Qle_bool (exp2 1024) (nearest a1)) eqn:B1;
    destruct (Qle_bool (exp2 1024) (nearest a2)) eqn:B2; cbn [dmin];
    try reflexivity.
  - apply Qle_bool_iff in B2.
    assert (C : Qle_bool (exp2 1024) (nearest a1) = true)
      by (apply Qle_bool_iff; lra).
    congruence.
  - destruct (Qle_bool (Qred (nearest a1)) (Qred (nearest a2))) eqn:C;
      [| reflexivity].
    apply Qle_bool_iff in C. rewrite !Qred_correct in C.
    f_equal. apply Qred_complete. lra.
Qed.

End WindowShape.

(** X11.  For a positive initial wait the window of the backoff is the
    double nearest to 2^count * wait for a collision count from -1074 to 3,
    and the double nearest to 10 * wait from the fourth collision on;
    either is Infinity when the product overflows. *)
Theorem backoff_window (count : Z) (wait : Q) :
  (0 < wait)%Q ->
  (-1074 <= count <= 3 -> maxDelay count wait = round64 (2 ^ count * wait)) /\
  (4 <= count -> maxDelay count wait = round64 (wait * 10)).
Proof.
  intros Hw. unfold maxDelay.
  change (dmul (Fin wait) (Fin 10)) with (round64 (wait * 10)).
  change (2 ^ count)%Q with (exp2 count).
  pose proof (exp2_pos count) as Pc.
  assert (H1 : (0 < exp2 count * wait)%Q) by (apply Qmult_lt_0_compat; assumption).
  assert (H2 : (0 < wait * 10)%Q) by lra.
  split; intros C;
    destruct (pow2_cases count) as [[A E] | [[A (p & E & Ep)] | [A E]]];
    try lia; rewrite E.
  - change (dmul (Fin p) (Fin wait)) with (round64 (p * wait)).
    assert (Hp : (0 < p * wait)%Q) by (rewrite Ep; exact H1).
    rewrite (round64_comp (p * wait) (exp2 count * wait) Hp)
      by (rewrite Ep; reflexivity).
    apply dmin_round64_l; [exact H1 |].
    rewrite (Qmult_comm wait 10). apply Qmult_le_compat_r; [| lra].
    apply Qle_trans with (exp2 3); [apply exp2_le; lia | discriminate].
  - change (dmul (Fin p) (Fin wait)) with (round64 (p * wait)).
    assert (Hp : (0 < p * wait)%Q) by (rewrite Ep; exact H1).
    rewrite (round64_comp (p * wait) (exp2 count * wait) Hp)
      by (rewrite Ep; reflexivity).
    apply dmin_round64_r; [exact H2 |].
    rewrite (Qmult_comm wait 10). apply Qmult_le_compat_r; [| lra].
    apply Qle_trans with (exp2 4); [discriminate | apply exp2_le; lia].
  - assert (T : dmul PosInf (Fin wait) = PosInf).
    { cbn. unfold times_infinity. apply Qgt_alt in Hw. rewrite Hw. reflexivity. }
    rewrite T.
    destruct (round64_cases _ H2) as [I | (q & F & _)]; rewrite ?I, ?F; reflexivity.
Qed.

Lemma backoff_window_witness :
  maxDelay 7 100 = round64 (100 * 10).
Proof.
  apply (backoff_window 7 100).
  - reflexivity.
  - discriminate.
Defined.

(** ** Waiting behind a predecessor and waking up *)

(** X14.  A fresh session without retry limit and without TTL whose node
    is behind another one waits on a watch and nothing else: after the
    listing and the existence check that finds the predecessor, only the
    watch is owed.  When the watch fires and the new listing has the node
    first, the lock is acquired: the held path is the created path, success
    is reported exactly once and nothing is owed any more. *)
Theorem waiter_acquires_after_watch (c : ctx) (f : callback) (name : string)
    (stat : Stat) (random : Q) (children children' : list string) :
  cb c = Some f -> acquiredResource c = None ->
  truthy_num (ttl c) = false -> truthy_num (maxRetryCount c) = false ->
  no_slash name = true ->
  ~ smallest name children -> smallest name children' ->
  let path := resourceName c ++ "/" ++ name in
  exists w w',
    run [CallLock; Created None path; Listed None children;
         Checked None (Some stat) random] (init c) = Some w /\
    outstanding w = [PWatch] /\
    acquiredResource (session w) = None /\
    filter is_callback (output w) = [] /\
    run [Watched; Listed None children'] w = Some w' /\
    outstanding w' = [] /\
    acquiredResource (session w') = Some path /\
    filter is_callback (output w') = [CallCb f [VNull; VCtx]].
Proof.
  intros Hcb Hheld Httl Hlim Hname Hbehind Hfirst path. subst path.
  set (c1 := with_seqZnode (Some name) c).
  assert (E1 : exec (handler CallLock) c =
               (c, [ClientCreate (resourceName c ++ "/" ++ resourceId c)])).
  { destruct c. reflexivity. }
  assert (E2 : exec (handler (Created None (resourceName c ++ "/" ++ name))) c =
               (c1, [Log OnDebug [VString "znode created";
                                  VString (resourceName c ++ "/" ++ name)];
                     ClientGetChildren (resourceName c)])).
  { subst c1. destruct c as [rn rid t mx w cb0 sq acq lst cc]. js.
    rewrite (split_pop_name rn name Hname). reflexivity. }
  pose proof (listed_waiting c1 name children eq_refl Hbehind) as E3.
  cbv zeta in E3.
  change (maxRetryCount c1) with (maxRetryCount c) in E3. rewrite Hlim in E3.
  match type of E3 with _ = (?x, _) => set (c2 := x) in * end.
  assert (Hlim2 : truthy_num (maxRetryCount c2) = false) by exact Hlim.
  pose proof (exists_checked_waits c2 stat random Hlim2) as E4.
  assert (E5 : exec (handler Watched) c2 =
               (c2, [ClientGetChildren (resourceName c)])).
  { subst c2 c1. destruct c. reflexivity. }
  pose proof (listed_first c2 name f children' eq_refl Hcb Hfirst) as E6.
  change (ttl c2) with (ttl c) in E6. rewrite Httl in E6.
  set (w1 := mkWorld c [PCreated]
               [ClientCreate (resourceName c ++ "/" ++ resourceId c)]).
  set (out2 := [ClientCreate (resourceName c ++ "/" ++ resourceId c);
                Log OnDebug [VString "znode created";
                             VString (resourceName c ++ "/" ++ name)];
                ClientGetChildren (resourceName c)]).
  set (w2 := mkWorld c1 [PListed] out2).
  match type of E3 with _ = (_, ?o) => set (out3 := o) in * end.
  set (w3 := mkWorld c2 [PChecked; PWatch] (out2 ++ out3)).
  set (w4 := mkWorld c2 [PWatch] (out2 ++ out3)).
  set (w5 := mkWorld c2 [PListed]
               ((out2 ++ out3) ++ [ClientGetChildren (resourceName c)])).
  assert (D1 : deliver CallLock (init c) = Some w1).
  { rewrite (deliver_entry CallLock (init c) _ _ eq_refl E1). reflexivity. }
  assert (D2 : deliver (Created None (resourceName c ++ "/" ++ name)) w1 = Some w2).
  { rewrite (deliver_awaited (Created None (resourceName c ++ "/" ++ name))
               PCreated w1 [] _ _ eq_refl eq_refl E2).
    reflexivity. }
  assert (D3 : deliver (Listed None children) w2 = Some w3).
  { rewrite (deliver_awaited (Listed None children) PListed w2 [] _ _
               eq_refl eq_refl E3).
    reflexivity. }
  assert (D4 : deliver (Checked None (Some stat) random) w3 = Some w4).
  { rewrite (deliver_awaited (Checked None (Some stat) random) PChecked w3
               [PWatch] _ _ eq_refl eq_refl E4).
    unfold w4, w3. cbn [output flat_map]. rewrite !app_nil_r. reflexivity. }
  assert (D5 : deliver Watched w4 = Some w5).
  { rewrite (deliver_awaited Watched PWatch w4 [] _ _ eq_refl eq_refl E5).
    reflexivity. }
  eexists. eexists. split; [|split; [|split; [|split; [|split]]]].
  - cbn [run]. rewrite D1, D2, D3, D4. reflexivity.
  - reflexivity.
  - subst w4 c2 c1. destruct c; exact Hheld.
  - reflexivity.
  - cbn [run]. rewrite D5.
    rewrite (deliver_awaited (Listed None children') PListed w5 [] _ _
               eq_refl eq_refl E6).
    reflexivity.
  - repeat split.
Qed.

Lemma waiter_acquires_after_watch_witness :
  exists w w',
    run [CallLock; Created None "/locks/a/x0000000002";
         Listed None ["x0000000002"; "x0000000001"];
         Checked None (Some (mkStat 0)) 0] (init demo) = Some w /\
    outstanding w = [PWatch] /\
    acquiredResource (session w) = None /\
    filter is_callback (output w) = [] /\
    run [Watched; Listed None ["x0000000002"]] w = Some w' /\
    outstanding w' = [] /\
    acquiredResource (session w') = Some "/locks/a/x0000000002" /\
    filter is_callback (output w') = [CallCb (UserCb 0) [VNull; VCtx]].
Proof.
  apply (waiter_acquires_after_watch demo (UserCb 0) "x0000000002" (mkStat 0) 0
           ["x0000000002"; "x0000000001"] ["x0000000002"]).
  - reflexivity.
  - reflexivity.
  - reflexivity.
  - reflexivity.
  - reflexivity.
  - intros [_ F].
    specialize (F "x0000000001" (or_intror (or_introl eq_refl))).
    discriminate.
  - split; [left; reflexivity | intros x [<-|[]]; reflexivity].
Defined.
